(** * GOP3 fan page backend (server/app.py): a shallow embedding

    The contact-form backend of server/app.py, embedded function by
    function: the per-IP rate limiter and its sweep, the attachment
    checks, the plain-text composer, the SMTP dispatcher with its retry
    loop, and the /send-email handler that chains them.

    Conventions of the embedding.
    - A Python [str] is a Rocq [string]; a character is a code point below
      256.  [str.lower], [str.strip] and the JSON escapes are written out
      for that range.
    - A Python [dict] keyed by strings whose order is never observed (the
      rate store and its entries) is a [gmap]; a dict whose order is
      observed (a JSON object, the attachments) is an association list.
    - Integers are [Z].  The clock, the SMTP server and the libraries the
      program calls (werkzeug, json.loads, str on containers) are inputs of
      the functions that use them.
    - A call that can raise returns a [pyres]; the effects of the
      dispatcher are recorded as a trace of events. *)

From Stdlib Require Import ZArith List Ascii String Bool Lia.
From stdpp Require Import base gmap strings list fin_maps pretty.

Open Scope Z_scope.
Open Scope string_scope.

#[local] Set Warnings "-register-all".

(** ** Exceptions and results *)

Inductive exc : Type :=
| EnvError (descr : string)         (* raised by a collaborator: smtplib, email, ... *)
| KeyError (key : string)
| AttributeError (descr : string)
| RuntimeError (msg : string)                      (* raise ... from None *)
| RuntimeErrorFrom (msg : string) (cause : exc).   (* raise ... from cause *)

Inductive pyres (A : Type) : Type :=
| Ok (a : A)
| Raise (e : exc).
Arguments Ok {A} a.
Arguments Raise {A} e.

(** ** Configuration and constants *)

Definition MAX_ATTACHMENT_SIZE : Z := 8 * 1024 * 1024.
Definition ALLOWED_ATTACHMENT_EXT : gset string :=
  {["png"; "jpg"; "jpeg"; "gif"; "pdf"; "txt"; "md"]}.
Definition RATE_LIMIT_WINDOW : Z := 60.
Definition RATE_LIMIT_MAX : Z := 6.

(** ** The in-memory rate limiter

    [_rate_store] maps an IP to a dict with the keys "count" and
    "window_start".  The lock makes every call one atomic step, so a call
    is a function from the store to a verdict and the next store; [now] is
    [int(time.time())]. *)

Module RateLimiter.

(** The dict [{"count": count, "window_start": window_start}]. *)
Definition entry (count window_start : Z) : gmap string Z :=
  <["count" := count]> (<["window_start" := window_start]> ∅).

(** [is_rate_limited(ip)].  [not data] holds for a missing entry and for an
    empty dict; [data["count"] += 1] updates the dict held by the store. *)
Definition is_rate_limited (now : Z) (ip : string)
    (store : gmap string (gmap string Z)) : pyres bool * gmap string (gmap string Z) :=
  match store !! ip with
  | None => (Ok false, <[ip := entry 1 now]> store)
  | Some data =>
      if decide (data = ∅) then (Ok false, <[ip := entry 1 now]> store)
      else
        match data !! "window_start" with
        | None => (Raise (KeyError "window_start"), store)
        | Some window_start =>
            if decide (now - window_start > RATE_LIMIT_WINDOW)
            then (Ok false, <[ip := entry 1 now]> store)
            else
              match data !! "count" with
              | None => (Raise (KeyError "count"), store)
              | Some count =>
                  if decide (count >= RATE_LIMIT_MAX) then (Ok true, store)
                  else (Ok false, <[ip := <["count" := count + 1]> data]> store)
              end
        end
  end.

(** One pass of the body of [_cleanup_rate_store], at clock reading [now]. *)
Definition keys_to_delete (cutoff : Z) (store : gmap string (gmap string Z)) : list string :=
  (filter (λ kv : string * gmap string Z, default 0 (kv.2 !! "window_start") < cutoff)
          (map_to_list store)).*1.

Definition cleanup_pass (now : Z) (store : gmap string (gmap string Z))
    : gmap string (gmap string Z) :=
  let cutoff := now - RATE_LIMIT_WINDOW * 2 in
  foldl (λ m k, delete k m) store (keys_to_delete cutoff store).

(** A run of consecutive requests of one IP, at the given clock readings. *)
Fixpoint requests (ip : string) (times : list Z) (store : gmap string (gmap string Z))
    : list (pyres bool) * gmap string (gmap string Z) :=
  match times with
  | [] => ([], store)
  | now :: rest =>
      let '(v, store1) := is_rate_limited now ip store in
      let '(vs, store2) := requests ip rest store1 in
      (v :: vs, store2)
  end.

(** The operations that touch the store, and a run of them. *)
Inductive op : Type :=
| Check (now : Z) (ip : string)
| Sweep (now : Z).

Definition step (store : gmap string (gmap string Z)) (o : op) : gmap string (gmap string Z) :=
  match o with
  | Check now ip => (is_rate_limited now ip store).2
  | Sweep now => cleanup_pass now store
  end.

Definition run (ops : list op) : gmap string (gmap string Z) := foldl step ∅ ops.

(** No window is open for [ip] at [now]: the entry is missing, empty, or its
    window has elapsed. *)
Definition no_open_window (now : Z) (ip : string) (store : gmap string (gmap string Z)) : Prop :=
  store !! ip = None ∨ store !! ip = Some ∅ ∨
  ∃ data ws, store !! ip = Some data ∧ data !! "window_start" = Some ws ∧
             now - ws > RATE_LIMIT_WINDOW.

(** The IP is under the limit at [now], and [next] is the count its next
    request is to leave: 1 when no window is open, one more than the count
    of the open window otherwise. *)
Definition under_limit (now : Z) (ip : string) (store : gmap string (gmap string Z))
    (next : Z) : Prop :=
  (no_open_window now ip store ∧ next = 1) ∨
  (∃ data ws count,
     store !! ip = Some data ∧ data !! "window_start" = Some ws ∧
     now - ws <= RATE_LIMIT_WINDOW ∧
     data !! "count" = Some count ∧ count < RATE_LIMIT_MAX ∧ next = count + 1).

(** The invariant of the store. *)
Definition entry_ok (data : gmap string Z) : Prop :=
  ∃ count ws, data !! "count" = Some count ∧ 1 <= count <= RATE_LIMIT_MAX ∧
              data !! "window_start" = Some ws.

Definition store_inv (store : gmap string (gmap string Z)) : Prop :=
  map_Forall (λ _ data, entry_ok data) store.

End RateLimiter.

(** ** Strings

    The [str] methods the program calls, for code points below 256. *)

Module Str.

Definition newline : string := String "010"%char "".
Definition dquote : ascii := "034"%char.

Definition between (lo hi n : N) : bool := ((lo <=? n) && (n <=? hi))%N.

(** [str.lower] on one character: A-Z and the upper-case Latin-1 letters. *)
Definition lower_char (c : ascii) : ascii :=
  let n := N_of_ascii c in
  if between 65 90 n || between 192 214 n || between 216 222 n
  then ascii_of_N (n + 32) else c.

Fixpoint lower (s : string) : string :=
  match s with
  | EmptyString => EmptyString
  | String c rest => String (lower_char c) (lower rest)
  end.

(** [str.isspace] on one character. *)
Definition is_space (c : ascii) : bool :=
  let n := N_of_ascii c in
  between 9 13 n || between 28 32 n || (n =? 133)%N || (n =? 160)%N.

Fixpoint lstrip (s : string) : string :=
  match s with
  | EmptyString => EmptyString
  | String c rest => if is_space c then lstrip rest else s
  end.

Fixpoint rstrip (s : string) : string :=
  match s with
  | EmptyString => EmptyString
  | String c rest =>
      match rstrip rest with
      | EmptyString => if is_space c then EmptyString else String c EmptyString
      | kept => String c kept
      end
  end.

Definition strip (s : string) : string := lstrip (rstrip s).

Definition nonempty (s : string) : bool :=
  match s with EmptyString => false | _ => true end.

Definition startswith (s pre : string) : bool := String.prefix pre s.

Definition endswith (s suf : string) : bool :=
  String.prefix (String.rev suf) (String.rev s).

(** [s.endswith((a, b, ...))]. *)
Definition endswith_any (s : string) (sufs : list string) : bool :=
  existsb (endswith s) sufs.

(** [c in s] for a one-character [c]. *)
Fixpoint contains (c : ascii) (s : string) : bool :=
  match s with
  | EmptyString => false
  | String d rest => Ascii.eqb d c || contains c rest
  end.

(** The split at the last occurrence of [sep], when there is one. *)
Fixpoint rsplit_last (sep : ascii) (s : string) : option (string * string) :=
  match s with
  | EmptyString => None
  | String c rest =>
      match rsplit_last sep rest with
      | Some (head, tail) => Some (String c head, tail)
      | None => if Ascii.eqb c sep then Some (EmptyString, rest) else None
      end
  end.

(** [s.rsplit(sep, 1)]. *)
Definition rsplit1 (sep : ascii) (s : string) : list string :=
  match rsplit_last sep s with
  | Some (head, tail) => [head; tail]
  | None => [s]
  end.

(** [sep.join(parts)]. *)
Fixpoint join (sep : string) (parts : list string) : string :=
  match parts with
  | [] => EmptyString
  | [p] => p
  | p :: rest => p ++ sep ++ join sep rest
  end.

End Str.

(** ** JSON values

    What [json.loads] and [request.get_json] produce, and what [json.dumps]
    takes.  A float is represented by what the program can observe of it:
    its truth value, and the texts [json.dumps] and [str] give for it. *)

Record pyfloat : Type := {
  float_truth : bool;
  float_json : string;
  float_str : string
}.

Inductive json : Type :=
| JNull
| JBool (b : bool)
| JInt (n : Z)
| JFloat (f : pyfloat)
| JStr (s : string)
| JList (items : list json)
| JDict (fields : list (string * json)).

Module Json.

(** [bool(value)]. *)
Definition truthy (v : json) : bool :=
  match v with
  | JNull => false
  | JBool b => b
  | JInt n => negb (n =? 0)%Z
  | JFloat f => float_truth f
  | JStr s => Str.nonempty s
  | JList items => match items with [] => false | _ => true end
  | JDict fields => match fields with [] => false | _ => true end
  end.

(** [a or b]. *)
Definition py_or (a b : json) : json := if truthy a then a else b.

(** [d.get(key)] on a dict kept as an association list. *)
Fixpoint dict_get {A} (dflt : A) (key : string) (d : list (string * A)) : A :=
  match d with
  | [] => dflt
  | (k, v) :: rest => if String.eqb k key then v else dict_get dflt key rest
  end.

(** [key in d]. *)
Fixpoint dict_has {A} (key : string) (d : list (string * A)) : bool :=
  match d with
  | [] => false
  | (k, _) :: rest => String.eqb k key || dict_has key rest
  end.

(** [d[key] = v]: an existing key keeps its place. *)
Fixpoint dict_set {A} (key : string) (v : A) (d : list (string * A)) : list (string * A) :=
  match d with
  | [] => [(key, v)]
  | (k, w) :: rest =>
      if String.eqb k key then (k, v) :: rest else (k, w) :: dict_set key v rest
  end.

(** The dict without [key]. *)
Fixpoint dict_del {A} (key : string) (d : list (string * A)) : list (string * A) :=
  match d with
  | [] => []
  | (k, v) :: rest =>
      if String.eqb k key then dict_del key rest else (k, v) :: dict_del key rest
  end.

Definition hex_digit (n : N) : ascii :=
  match String.get (N.to_nat n) "0123456789abcdef" with
  | Some c => c
  | None => "0"%char
  end.

(** One character of [json.dumps(s)] with [ensure_ascii] on. *)
Definition escape_char (c : ascii) : string :=
  let n := N_of_ascii c in
  if (n =? 34)%N then String "\" (String Str.dquote "")
  else if (n =? 92)%N then "\\"
  else if (n =? 10)%N then "\n"
  else if (n =? 13)%N then "\r"
  else if (n =? 9)%N then "\t"
  else if (n =? 8)%N then "\b"
  else if (n =? 12)%N then "\f"
  else if Str.between 32 126 n then String c ""
  else "\u00" ++ String (hex_digit (n / 16)) (String (hex_digit (n mod 16)) "").

Fixpoint escape (s : string) : string :=
  match s with
  | EmptyString => EmptyString
  | String c rest => escape_char c ++ escape rest
  end.

Definition encode_string (s : string) : string :=
  String Str.dquote (escape s) ++ String Str.dquote "".

Fixpoint spaces (n : nat) : string :=
  match n with
  | O => EmptyString
  | S k => String " " (spaces k)
  end.

(** A line break followed by the indentation of nesting depth [level]. *)
Definition newline_indent (level : nat) : string :=
  Str.newline ++ spaces (2 * level).

(** [json.dumps(v, indent=2)], at nesting depth [level]. *)
Fixpoint dumps_at (level : nat) (v : json) : string :=
  match v with
  | JNull => "null"
  | JBool true => "true"
  | JBool false => "false"
  | JInt n => @pretty Z _ n
  | JFloat f => float_json f
  | JStr s => encode_string s
  | JList [] => "[]"
  | JList items =>
      "[" ++ newline_indent (S level)
          ++ Str.join ("," ++ newline_indent (S level)) (map (dumps_at (S level)) items)
          ++ newline_indent level ++ "]"
  | JDict [] => "{}"
  | JDict fields =>
      "{" ++ newline_indent (S level)
          ++ Str.join ("," ++ newline_indent (S level))
               (map (λ kv, encode_string (fst kv) ++ ": " ++ dumps_at (S level) (snd kv)) fields)
          ++ newline_indent level ++ "}"
  end.

Definition dumps_indent2 (v : json) : string := dumps_at 0 v.

End Json.

(** ** What the process is started with, and the libraries it calls *)

Class Deployment : Type := {
  SMTP_USER : string;
  SMTP_PASS : string;
  SMTP_FROM : string;
  SMTP_TO : string;
  secure_filename : string → string;   (* werkzeug.utils.secure_filename *)
  json_loads : string → pyres json;    (* json.loads *)
  str_of_container : json → string     (* str(v) for a list or a dict *)
}.

(** ** Utilities *)

(** [allowed_filename(filename)].  The [None] branch stands for the
    IndexError of [[1]], which the test on "." excludes. *)
Definition allowed_filename (filename : string) : bool :=
  if negb (Str.contains "." filename) then false
  else
    match Str.rsplit1 "." filename !! 1%nat with
    | Some part => bool_decide (Str.lower part ∈ ALLOWED_ATTACHMENT_EXT)
    | None => false
    end.

(** [str(value)]. *)
Definition py_str `{Deployment} (value : json) : string :=
  match value with
  | JNull => "None"
  | JBool true => "True"
  | JBool false => "False"
  | JInt n => @pretty Z _ n
  | JFloat f => float_str f
  | JStr s => s
  | JList _ | JDict _ => str_of_container value
  end.

(** [safe_text(value)]. *)
Definition safe_text `{Deployment} (value : json) : string :=
  if negb (Json.truthy value) then "" else Str.strip (py_str value).

(** [build_email_body(data)]; [sent_at] is [datetime.utcnow().isoformat()]. *)
Definition build_email_body `{Deployment} (sent_at : string) (data : list (string * json))
    : string :=
  let lines :=
    ["New message from GOP3 Fan Page contact form"; "";
     "Sent at: " ++ sent_at ++ "Z"; ""; "----"] in
  let name := safe_text (Json.dict_get JNull "name" data) in
  let email := safe_text (Json.dict_get JNull "email" data) in
  let subject := safe_text (Json.dict_get JNull "subject" data) in
  let message := safe_text (Json.dict_get JNull "message" data) in
  let lines := if Str.nonempty name then (lines ++ ["Name: " +:+ name])%list else lines in
  let lines := if Str.nonempty email then (lines ++ ["Email: " +:+ email])%list else lines in
  let lines := if Str.nonempty subject then (lines ++ ["Subject: " +:+ subject])%list else lines in
  let lines := (lines ++ [""; "Message:";
                          if Str.nonempty message then message else "(no message)";
                          ""; "----"])%list in
  let lines :=
    if Json.dict_has "meta" data
    then (lines ++ ["Meta:"; Json.dumps_indent2 (Json.dict_get JNull "meta" data)])%list
    else lines in
  Str.join Str.newline lines.

(** ** The dispatcher *)

Module Dispatcher.

Record attachment_part : Type := {
  part_filename : string;
  part_maintype : string;
  part_subtype : string;
  part_content : list Byte.byte
}.

Record EmailMessage : Type := {
  msg_subject : string;
  msg_from : string;
  msg_to : string;
  msg_reply_to : option string;
  msg_content : string;
  msg_attachments : list attachment_part
}.

(** What the dispatcher does to the outside: the retry loop enters attempt
    [n], the server takes a message, the thread sleeps. *)
Inductive event : Type :=
| EvAttempt (n : Z)
| EvTransmit (msg : EmailMessage)
| EvSleep (seconds : Z).

(** The type guessed for one attachment (the body of the loop over
    [attachments.items()], lines 151-162). *)
Definition attachment_type (fname : string) : string * string :=
  let maintype := "application" in
  let subtype := "octet-stream" in
  if Str.endswith_any (Str.lower fname) [".png"; ".jpg"; ".jpeg"; ".gif"] then
    ("image",
     if Str.endswith (Str.lower fname) ".png')" then "png"
     else if Str.endswith_any (Str.lower fname) [".jpg"; ".jpeg"] then "jpeg"
     else "gif")
  else if Str.endswith (Str.lower fname) ".pdf" then ("application", "pdf")
  else if Str.endswith (Str.lower fname) ".txt" then ("text", "plain")
  else (maintype, subtype).

Definition attach (item : string * list Byte.byte) : attachment_part :=
  let '(maintype, subtype) := attachment_type item.1 in
  {| part_filename := item.1; part_maintype := maintype;
     part_subtype := subtype; part_content := item.2 |}.

(** The message of one attempt (lines 140-168).  The contents are [bytes],
    for which [add_attachment] takes the call with [maintype] and
    [subtype]. *)
Definition build_message `{Deployment} (subject body : string) (reply_to : option string)
    (attachments : option (list (string * list Byte.byte))) : EmailMessage :=
  {| msg_subject := subject;
     msg_from := SMTP_FROM;
     msg_to := SMTP_TO;
     msg_reply_to :=
       match reply_to with
       | Some r => if Str.nonempty r then Some r else None
       | None => None
       end;
     msg_content := body;
     msg_attachments :=
       match attachments with
       | Some items => map attach items
       | None => []
       end |}.

(** How the collaborators answer during one attempt: for each call that can
    raise, the exception it raises, if any.  Leaving the [with] block is
    taken to succeed. *)
Record smtp_attempt : Type := {
  compose_exc : option exc;    (* building the message *)
  connect_exc : option exc;    (* smtplib.SMTP(host, port, timeout=15) *)
  ehlo_exc : option exc;       (* smtp.ehlo() *)
  starttls_exc : option exc;   (* smtp.starttls(); smtp.ehlo() -- caught *)
  login_exc : option exc;      (* smtp.login(user, password) *)
  send_exc : option exc        (* smtp.send_message(msg) *)
}.

(** The body of the [try] of one attempt (lines 140-183).  An exception of
    STARTTLS is caught and logged, so [starttls_exc] changes nothing;
    [smtp.login] is called only when both credentials are set. *)
Definition attempt_once `{Deployment} (a : smtp_attempt) (msg : EmailMessage)
    : pyres unit * list event :=
  match compose_exc a with
  | Some e => (Raise e, [])
  | None =>
      match connect_exc a with
      | Some e => (Raise e, [])
      | None =>
          match ehlo_exc a with
          | Some e => (Raise e, [])
          | None =>
              match (if Str.nonempty SMTP_USER && Str.nonempty SMTP_PASS
                     then login_exc a else None) with
              | Some e => (Raise e, [])
              | None =>
                  match send_exc a with
                  | Some e => (Raise e, [])
                  | None => (Ok tt, [EvTransmit msg])
                  end
              end
          end
      end
  end.

Definition all_attempts_failed (max_attempts : Z) (last_exc : option exc) : exc :=
  let msg := "Failed to send email after " ++ @pretty Z _ max_attempts ++ " attempts" in
  match last_exc with
  | Some e => RuntimeErrorFrom msg e
  | None => RuntimeError msg
  end.

(** The [while attempts < max_attempts] loop; [remaining] is
    [max_attempts - attempts], the number of iterations left.  The wait
    [1.0 * (2 ** (attempts - 1))] is a power of two, kept as an integer
    number of seconds. *)
Fixpoint send_loop `{Deployment} (server : Z → smtp_attempt) (msg : EmailMessage)
    (max_attempts : Z) (remaining : nat) (attempts : Z) (last_exc : option exc)
    : pyres unit * list event :=
  match remaining with
  | O => (Raise (all_attempts_failed max_attempts last_exc), [])
  | S remaining' =>
      let attempts := attempts + 1 in
      match attempt_once (server attempts) msg with
      | (Ok _, evs) => (Ok tt, EvAttempt attempts :: evs)
      | (Raise e, evs) =>
          let '(r, later) :=
            send_loop server msg max_attempts remaining' attempts (Some e) in
          (r, EvAttempt attempts :: (evs ++ EvSleep (1 * 2 ^ (attempts - 1)) :: later)%list)
      end
  end.

(** [send_email(subject, body, reply_to, attachments, max_attempts)];
    [server n] is how the collaborators answer during attempt [n]. *)
Definition send_email `{Deployment} (server : Z → smtp_attempt) (subject body : string)
    (reply_to : option string) (attachments : option (list (string * list Byte.byte)))
    (max_attempts : Z) : pyres unit * list event :=
  send_loop server (build_message subject body reply_to attachments)
            max_attempts (Z.to_nat max_attempts) 0 None.

(** Observations on a trace. *)
Definition attempts_of (tr : list event) : list Z :=
  omap (λ ev, match ev with EvAttempt n => Some n | _ => None end) tr.

Definition sleeps_of (tr : list event) : list Z :=
  omap (λ ev, match ev with EvSleep d => Some d | _ => None end) tr.

Definition transmissions_of (tr : list event) : list EmailMessage :=
  omap (λ ev, match ev with EvTransmit m => Some m | _ => None end) tr.

(** Attempt [n] fails, with exception [e]. *)
Definition fails `{Deployment} (server : Z → smtp_attempt) (msg : EmailMessage)
    (n : Z) (e : exc) : Prop :=
  (attempt_once (server n) msg).1 = Raise e.

Definition succeeds `{Deployment} (server : Z → smtp_attempt) (msg : EmailMessage)
    (n : Z) : Prop :=
  (attempt_once (server n) msg).1 = Ok tt.

(** Every wait of the trace is followed by a further attempt. *)
Fixpoint waits_only_before_attempts (tr : list event) : bool :=
  match tr with
  | [] => true
  | EvSleep _ :: rest =>
      match attempts_of rest with [] => false | _ => waits_only_before_attempts rest end
  | _ :: rest => waits_only_before_attempts rest
  end.

(** The events of [k] failed attempts in a row, the first of them being
    attempt [first]: each is entered, fails, and is followed by its wait. *)
Fixpoint failed_rounds (first : Z) (k : nat) : list event :=
  match k with
  | O => []
  | S k' => EvAttempt first :: EvSleep (1 * 2 ^ (first - 1)) :: failed_rounds (first + 1) k'
  end.

(** The exception attempt [n] raises, if it raises one. *)
Definition raised `{Deployment} (server : Z → smtp_attempt) (msg : EmailMessage)
    (n : Z) : option exc :=
  match (attempt_once (server n) msg).1 with
  | Raise e => Some e
  | Ok _ => None
  end.

(** [last_exc] after [k] more failed attempts. *)
Definition last_after `{Deployment} (server : Z → smtp_attempt) (msg : EmailMessage)
    (k : nat) (attempts : Z) (last_exc : option exc) : option exc :=
  match k with
  | O => last_exc
  | S _ => raised server msg (attempts + Z.of_nat k)
  end.

End Dispatcher.

(** ** The /send-email route *)

Module Handler.

Import Dispatcher.

(** An uploaded file: its name, and the length and the bytes of its stream. *)
Record FileStorage : Type := {
  fs_filename : option string;
  fs_size : Z;
  fs_content : list Byte.byte
}.

(** The request as the framework hands it over.  [get_json] is the outcome
    of [request.get_json(force=True)]; [files] lists, in order, each field
    name of [request.files] with the file [request.files.get] returns. *)
Record Request : Type := {
  x_forwarded_for : option string;
  remote_addr : option string;
  content_type : option string;
  get_json : pyres json;
  form : gmap string string;
  files : list (string * FileStorage)
}.

(** A JSON response with its status, or an exception that leaves the view
    (the framework answers 500). *)
Inductive response : Type :=
| Response (status : Z) (body : list (string * string))
| Unhandled (e : exc).

Definition status_of (r : response) : Z :=
  match r with
  | Response status _ => status
  | Unhandled _ => 500
  end.

Definition exc_str (e : exc) : string :=
  match e with
  | EnvError descr => descr
  | KeyError key => "'" ++ key ++ "'"
  | AttributeError descr => descr
  | RuntimeError msg => msg
  | RuntimeErrorFrom msg _ => msg
  end.

Definition client_ip (req : Request) : string :=
  let addr :=
    match x_forwarded_for req with
    | Some h => Some h
    | None => remote_addr req
    end in
  match addr with
  | Some a => if Str.nonempty a then a else "unknown"
  | None => "unknown"
  end.

Definition too_many_requests : response :=
  Response 429 [("error", "Too many requests. Try again later.")].
Definition invalid_json : response :=
  Response 400 [("error", "Invalid JSON payload")].
Definition type_not_allowed (fname : string) : response :=
  Response 400 [("error", "Attachment type not allowed: " ++ fname)].
Definition too_large (fname : string) : response :=
  Response 400 [("error", "Attachment too large: " ++ fname)].
Definition missing_fields : response :=
  Response 422 [("error", "Missing required fields: name, email, and message are required")].
Definition sent_ok : response :=
  Response 200 [("message", "Email sent successfully")].
Definition send_failed (e : exc) : response :=
  Response 500 [("error", "Failed to send email"); ("detail", exc_str e)].

(** The body of the loop over [request.files] (lines 288-302): the file is
    skipped, refused, or added to [attachments]. *)
Definition receive_file `{Deployment} (file_storage : FileStorage)
    (attachments : list (string * list Byte.byte))
    : response + list (string * list Byte.byte) :=
  match fs_filename file_storage with
  | None => inr attachments
  | Some filename =>
      if negb (Str.nonempty filename) then inr attachments
      else
        let fname := secure_filename filename in
        if negb (allowed_filename fname) then inl (type_not_allowed fname)
        else if decide (fs_size file_storage > MAX_ATTACHMENT_SIZE)
        then inl (too_large fname)
        else inr (Json.dict_set fname (fs_content file_storage) attachments)
  end.

Fixpoint receive_files `{Deployment} (fields : list (string * FileStorage))
    (attachments : list (string * list Byte.byte))
    : response + list (string * list Byte.byte) :=
  match fields with
  | [] => inr attachments
  | (_, file_storage) :: rest =>
      match receive_file file_storage attachments with
      | inl refused => inl refused
      | inr attachments' => receive_files rest attachments'
      end
  end.

Definition form_field (req : Request) (name : string) : json :=
  match form req !! name with
  | Some s => JStr s
  | None => JNull
  end.

(** "Parse input" (lines 259-302): the payload and the attachments, or the
    response that ends the request. *)
Definition parse_input `{Deployment} (req : Request)
    : response + json * list (string * list Byte.byte) :=
  let is_json :=
    match content_type req with
    | Some ct => Str.nonempty ct && Str.startswith ct "application/json"
    | None => false
    end in
  if is_json then
    match get_json req with
    | Raise _ => inl invalid_json
    | Ok JNull => inl invalid_json
    | Ok payload => inr (payload, [])
    end
  else
    let payload :=
      [("name", form_field req "name"); ("email", form_field req "email");
       ("subject", form_field req "subject"); ("message", form_field req "message")] in
    let payload :=
      match form req !! "meta" with
      | Some meta =>
          if Str.nonempty meta then
            match json_loads meta with
            | Ok v => Json.dict_set "meta" v payload
            | Raise _ => Json.dict_set "meta" (JStr meta) payload
            end
          else payload
      | None => payload
      end in
    match receive_files (files req) [] with
    | inl refused => inl refused
    | inr attachments => inr (JDict payload, attachments)
    end.

(** The subject the handler goes on with (line 307). *)
Definition subject_of `{Deployment} (payload : list (string * json)) : string :=
  safe_text (Json.py_or (Json.dict_get JNull "subject" payload) (JStr "GOP3 Fan Message")).

(** "Minimal validation", "Build email" and "Attempt to send" (lines
    304-329), for a payload that is a dict. *)
Definition validate_and_send `{Deployment} (sent_at : string) (server : Z → smtp_attempt)
    (payload : list (string * json)) (attachments : list (string * list Byte.byte))
    : response * list event :=
  let name := safe_text (Json.dict_get JNull "name" payload) in
  let email := safe_text (Json.dict_get JNull "email" payload) in
  let subject := subject_of payload in
  let message := safe_text (Json.dict_get JNull "message" payload) in
  if negb (Str.nonempty name && Str.nonempty email && Str.nonempty message)
  then (missing_fields, [])
  else
    let body := build_email_body sent_at
      [("name", JStr name); ("email", JStr email); ("subject", JStr subject);
       ("message", JStr message); ("meta", Json.dict_get JNull "meta" payload)] in
    match send_email server ("[GOP3 Fan] " ++ subject ++ " (from " ++ name ++ ")") body
            (Some email) (match attachments with [] => None | _ => Some attachments end) 3 with
    | (Ok _, tr) => (sent_ok, tr)
    | (Raise e, tr) => (send_failed e, tr)
    end.

(** [receive_send_email()]: the response, the rate store after the request,
    and what the dispatcher did. *)
Definition receive_send_email `{Deployment} (now : Z) (sent_at : string)
    (server : Z → smtp_attempt) (req : Request) (store : gmap string (gmap string Z))
    : response * gmap string (gmap string Z) * list event :=
  let ip := client_ip req in
  match RateLimiter.is_rate_limited now ip store with
  | (Raise e, store') => (Unhandled e, store', [])
  | (Ok true, store') => (too_many_requests, store', [])
  | (Ok false, store') =>
      match parse_input req with
      | inl refused => (refused, store', [])
      | inr (JDict payload, attachments) =>
          let '(resp, tr) := validate_and_send sent_at server payload attachments in
          (resp, store', tr)
      | inr (_, _) => (Unhandled (AttributeError "object has no attribute 'get'"), store', [])
      end
  end.

End Handler.

(** ** A deployment and servers for the examples

    The library functions are given on the inputs the examples use: file
    names that are already safe, and no [meta] form field. *)

Module Examples.

Definition deployment : Deployment := {|
  SMTP_USER := "mailer";
  SMTP_PASS := "secret";
  SMTP_FROM := "gop3-fan@example.com";
  SMTP_TO := "gop3-fan@example.com";
  secure_filename := λ name, name;
  json_loads := λ _, Raise (EnvError "JSONDecodeError");
  str_of_container := λ _, "[]"
|}.

Definition accepting : Dispatcher.smtp_attempt :=
  {| Dispatcher.compose_exc := None; Dispatcher.connect_exc := None;
     Dispatcher.ehlo_exc := None; Dispatcher.starttls_exc := None;
     Dispatcher.login_exc := None; Dispatcher.send_exc := None |}.

Definition refusing : Dispatcher.smtp_attempt :=
  {| Dispatcher.compose_exc := None;
     Dispatcher.connect_exc := Some (EnvError "Connection refused");
     Dispatcher.ehlo_exc := None; Dispatcher.starttls_exc := None;
     Dispatcher.login_exc := None; Dispatcher.send_exc := None |}.

(** A server that is down, and one that comes up for the third attempt. *)
Definition down (n : Z) : Dispatcher.smtp_attempt := refusing.
Definition up (n : Z) : Dispatcher.smtp_attempt := accepting.

Definition json_request (payload : json) : Handler.Request :=
  {| Handler.x_forwarded_for := None;
     Handler.remote_addr := Some "203.0.113.9";
     Handler.content_type := Some "application/json";
     Handler.get_json := Ok payload;
     Handler.form := ∅;
     Handler.files := [] |}.

(** Payloads: a complete one without subject and meta, one with a subject
    of three spaces, and one whose name is blank. *)
Definition ann : list (string * json) :=
  [("name", JStr "Ann"); ("email", JStr "ann@x.com"); ("message", JStr "Hi")].
Definition ann_blank_subject : list (string * json) :=
  [("name", JStr "Ann"); ("email", JStr "ann@x.com"); ("subject", JStr "   ");
   ("message", JStr "Hi")].
Definition blank_name : list (string * json) :=
  [("name", JStr "  "); ("email", JStr "ann@x.com"); ("message", JStr "Hi")].

Definition sent_at : string := "2025-01-01T00:00:00".

(** A request whose JSON body is [null]. *)
Definition null_request : Handler.Request := json_request JNull.

Definition upload (name : string) (size : Z) : Handler.FileStorage :=
  {| Handler.fs_filename := Some name; Handler.fs_size := size; Handler.fs_content := [] |}.

(** The same request behind a proxy that sets X-Forwarded-For to [h]. *)
Definition forwarded_request (h : string) (payload : json) : Handler.Request :=
  {| Handler.x_forwarded_for := Some h;
     Handler.remote_addr := Some "203.0.113.9";
     Handler.content_type := Some "application/json";
     Handler.get_json := Ok payload;
     Handler.form := ∅;
     Handler.files := [] |}.

End Examples.

(** ** Notions the properties are stated with *)

(** The name reads [stem.ext], with no further dot in [ext], and [ext] is in
    the allow-list once lower-cased. *)
Definition has_allowed_extension (fname : string) : Prop :=
  ∃ stem ext, fname = stem ++ "." ++ ext ∧ Str.contains "." ext = false ∧
              Str.lower ext ∈ ALLOWED_ATTACHMENT_EXT.

(** Requests of several IPs, served in order: each verdict with the IP it
    is for. *)
Fixpoint serve (reqs : list (string * Z)) (store : gmap string (gmap string Z))
    : list (string * pyres bool) * gmap string (gmap string Z) :=
  match reqs with
  | [] => ([], store)
  | (ip, now) :: rest =>
      let '(v, store1) := RateLimiter.is_rate_limited now ip store in
      let '(vs, store2) := serve rest store1 in
      ((ip, v) :: vs, store2)
  end.

(** What concerns [ip] in a list tagged by IP. *)
Definition of_ip {A} (ip : string) (tagged : list (string * A)) : list A :=
  (filter (λ p, p.1 = ip) tagged).*2.

(** The sum of a list of waits. *)
Definition total (waits : list Z) : Z := foldr Z.add 0 waits.

(** A file the loop over [request.files] lets pass: it has no name, or its
    sanitized name is allowed and its size is within the limit. *)
Definition acceptable `{Deployment} (file_storage : Handler.FileStorage) : bool :=
  match Handler.fs_filename file_storage with
  | None => true
  | Some filename =>
      negb (Str.nonempty filename)
      || (allowed_filename (secure_filename filename)
          && bool_decide (Handler.fs_size file_storage <= MAX_ATTACHMENT_SIZE))
  end.

(** The response to a named file that does not pass. *)
Definition refusal `{Deployment} (file_storage : Handler.FileStorage) : Handler.response :=
  let fname := secure_filename (default "" (Handler.fs_filename file_storage)) in
  if allowed_filename fname then Handler.too_large fname else Handler.type_not_allowed fname.

(** The message the handler hands to the dispatcher for a valid payload. *)
Definition outgoing `{Deployment} (sent_at : string) (payload : list (string * json))
    (attachments : list (string * list Byte.byte)) : Dispatcher.EmailMessage :=
  let name := safe_text (Json.dict_get JNull "name" payload) in
  let email := safe_text (Json.dict_get JNull "email" payload) in
  let subject := Handler.subject_of payload in
  let message := safe_text (Json.dict_get JNull "message" payload) in
  Dispatcher.build_message
    ("[GOP3 Fan] " ++ subject ++ " (from " ++ name ++ ")")
    (build_email_body sent_at
       [("name", JStr name); ("email", JStr email); ("subject", JStr subject);
        ("message", JStr message); ("meta", Json.dict_get JNull "meta" payload)])
    (Some email)
    (match attachments with [] => None | _ => Some attachments end).

(** The lines of the body of a valid submission. *)
Definition body_lines `{Deployment} (sent_at : string) (payload : list (string * json))
    : list string :=
  let subject := Handler.subject_of payload in
  (["New message from GOP3 Fan Page contact form"; "";
    "Sent at: " +:+ sent_at +:+ "Z"; ""; "----";
    "Name: " +:+ safe_text (Json.dict_get JNull "name" payload);
    "Email: " +:+ safe_text (Json.dict_get JNull "email" payload)]
   ++ (if Str.nonempty subject then ["Subject: " +:+ subject] else [])
   ++ [""; "Message:"; safe_text (Json.dict_get JNull "message" payload); ""; "----";
       "Meta:"; Json.dumps_indent2 (Json.dict_get JNull "meta" payload)])%list.

(** The names collected so far are allowed and distinct. *)
Definition attachments_ok (attachments : list (string * list Byte.byte)) : Prop :=
  Forall (λ fname, allowed_filename fname = true) attachments.*1 ∧ NoDup attachments.*1.

(** * Properties *)

(** ** The rate limiter *)

Module RateLimiterFacts.

Import RateLimiter.

Lemma entry_nonempty c ws : entry c ws ≠ ∅.
Proof. unfold entry. apply insert_non_empty. Qed.

Lemma entry_window_start c ws : entry c ws !! "window_start" = Some ws.
Proof. unfold entry. rewrite lookup_insert_ne by done. apply lookup_insert_eq. Qed.

Lemma entry_count c ws : entry c ws !! "count" = Some c.
Proof. unfold entry. apply lookup_insert_eq. Qed.

Lemma entry_bump c c' ws : <["count" := c']> (entry c ws) = entry c' ws.
Proof. unfold entry. apply insert_insert_eq. Qed.

(** A call with no open window opens one, counts the request, and allows it. *)
Lemma is_rate_limited_reset now ip (store : gmap string (gmap string Z)) :
  no_open_window now ip store →
  is_rate_limited now ip store = (Ok false, <[ip := entry 1 now]> store).
Proof.
  intros [Hnone | [Hempty | (data & ws & Hdata & Hws & Hold)]]; unfold is_rate_limited.
  - by rewrite Hnone.
  - rewrite Hempty. by case_decide.
  - rewrite Hdata. case_decide; [done |].
    rewrite Hws. by case_decide.
Qed.

(** A call inside an open window counts up to the limit, then denies. *)
Lemma is_rate_limited_open now ip c ws (store : gmap string (gmap string Z)) :
  store !! ip = Some (entry c ws) →
  now - ws <= RATE_LIMIT_WINDOW →
  is_rate_limited now ip store =
    if decide (c >= RATE_LIMIT_MAX) then (Ok true, store)
    else (Ok false, <[ip := entry (c + 1) ws]> store).
Proof.
  intros Hip Hin. unfold is_rate_limited. rewrite Hip.
  destruct (decide (entry c ws = ∅)) as [He | _]; [by apply entry_nonempty in He |].
  rewrite entry_window_start. case_decide; [lia |].
  rewrite entry_count. case_decide; [done |]. by rewrite entry_bump.
Qed.

(** The verdicts and the final store of a run of requests that all fall in
    the open window of [ip]. *)
Lemma requests_in_window ip ws ts : ∀ (c : nat) (store : gmap string (gmap string Z)),
  store !! ip = Some (entry (Z.of_nat c) ws) →
  (c <= 6)%nat →
  Forall (λ t, t - ws <= RATE_LIMIT_WINDOW) ts →
  requests ip ts store =
    (Ok <$> (replicate (length ts `min` (6 - c)) false
             ++ replicate (length ts - (6 - c)) true)%list,
     <[ip := entry (Z.of_nat ((c + length ts) `min` 6)) ws]> store).
Proof.
  induction ts as [| t ts IH]; intros c store Hip Hc Hts.
  - cbn. rewrite Nat.add_0_r, Nat.min_l by done. by rewrite insert_id.
  - apply Forall_cons in Hts as [Ht Hts]. cbn [requests].
    rewrite (is_rate_limited_open _ _ _ _ _ Hip Ht).
    unfold RATE_LIMIT_MAX. case_decide as Hfull.
    + assert (c = 6%nat) as -> by lia.
      rewrite (IH 6%nat store Hip) by done.
      cbn [length].
      rewrite !Nat.sub_diag, !Nat.min_0_r, !Nat.sub_0_r, !(Nat.min_r _ 6) by lia.
      reflexivity.
    + rewrite (IH (S c) (<[ip := entry (Z.of_nat c + 1) ws]> store)); [| | lia | done].
      2:{ rewrite lookup_insert_eq. do 2 f_equal. lia. }
      rewrite insert_insert_eq. cbn [length].
      replace (c + S (length ts))%nat with (S c + length ts)%nat by lia.
      replace (S (length ts) `min` (6 - c))%nat with (S (length ts `min` (6 - S c))) by lia.
      replace (S (length ts) - (6 - c))%nat with (length ts - (6 - S c))%nat by lia.
      done.
Qed.

(** C1.  For every IP: when no window is open for it at [t0] (no entry, or
    the window of its entry has elapsed), a request at [t0] opens a window
    with count 1 and is allowed; of the requests that follow while
    [t - t0 <= 60], those that bring the total to at most 6 are allowed and
    counted, and the 7th and later ones are denied and leave the count
    at 6. *)
Theorem fixed_window_allows_six ip t0 ts (store : gmap string (gmap string Z)) :
  no_open_window t0 ip store →
  Forall (λ t, t - t0 <= RATE_LIMIT_WINDOW) ts →
  requests ip (t0 :: ts) store =
    (Ok <$> (replicate (S (length ts) `min` 6) false
             ++ replicate (S (length ts) - 6) true)%list,
     <[ip := entry (Z.of_nat (S (length ts) `min` 6)) t0]> store).
Proof.
  intros Hclosed Hts. cbn [requests].
  rewrite (is_rate_limited_reset _ _ _ Hclosed).
  rewrite (requests_in_window ip t0 ts 1 (<[ip := entry 1 t0]> store));
    [| by rewrite lookup_insert_eq | lia | done].
  rewrite insert_insert_eq.
  replace (S (length ts) `min` 6)%nat with (S (length ts `min` (6 - 1))) by lia.
  replace (S (length ts) - 6)%nat with (length ts - (6 - 1))%nat by lia.
  replace ((1 + length ts) `min` 6)%nat with (S (length ts `min` (6 - 1))) by lia.
  done.
Qed.

Lemma fixed_window_allows_six_witness :
  requests "10.0.0.7" [100; 101; 102; 130; 159; 160; 160; 160]
           (<["10.0.0.7" := entry 6 39]> ∅) =
    (Ok <$> [false; false; false; false; false; false; true; true],
     <["10.0.0.7" := entry 6 100]> (<["10.0.0.7" := entry 6 39]> ∅)).
Proof.
  apply (fixed_window_allows_six "10.0.0.7" 100 [101; 102; 130; 159; 160; 160; 160]).
  - right; right. exists (entry 6 39), 39. split; [apply lookup_insert_eq |].
    split; [apply entry_window_start | unfold RATE_LIMIT_WINDOW; lia].
  - unfold RATE_LIMIT_WINDOW. repeat constructor; lia.
Defined.

Lemma entry_ok_entry c ws : 1 <= c <= RATE_LIMIT_MAX → entry_ok (entry c ws).
Proof.
  intros Hc. exists c, ws. by rewrite entry_count, entry_window_start.
Qed.

Lemma store_inv_empty : store_inv ∅.
Proof. apply map_Forall_empty. Qed.

Lemma is_rate_limited_inv now ip (store : gmap string (gmap string Z)) :
  store_inv store →
  (∃ verdict, (is_rate_limited now ip store).1 = Ok verdict) ∧
  store_inv (is_rate_limited now ip store).2.
Proof.
  intros Hinv. unfold is_rate_limited.
  assert (store_inv (<[ip := entry 1 now]> store)) as Hfresh.
  { apply map_Forall_insert_2; [| done]. apply entry_ok_entry. unfold RATE_LIMIT_MAX. lia. }
  destruct (store !! ip) as [data |] eqn:Hip; [| eauto].
  case_decide; [eauto |].
  destruct (Hinv ip data Hip) as (c & ws & Hc & Hbound & Hws).
  rewrite Hws. case_decide; [eauto |].
  rewrite Hc. case_decide; [eauto |]. cbn. split; [eauto |].
  apply map_Forall_insert_2; [| done].
  exists (c + 1), ws. rewrite lookup_insert_eq, lookup_insert_ne by done.
  repeat split; [lia | lia | done].
Qed.

Lemma delete_keys_inv keys : ∀ store : gmap string (gmap string Z),
  store_inv store → store_inv (foldl (λ m k, delete k m) store keys).
Proof.
  induction keys as [| k keys IH]; intros store Hinv; cbn; [done |].
  apply IH. by apply map_Forall_delete.
Qed.

Lemma cleanup_pass_inv now (store : gmap string (gmap string Z)) :
  store_inv store → store_inv (cleanup_pass now store).
Proof. intros Hinv. unfold cleanup_pass. by apply delete_keys_inv. Qed.

(** C9.  Every entry of the rate store has a count between 1 and 6 and a
    window start; a check-and-record call keeps this (and then raises
    nothing), and so does a sweep pass. *)
Theorem store_invariant_preserved now ip (store : gmap string (gmap string Z)) :
  store_inv store →
  (∃ verdict, (is_rate_limited now ip store).1 = Ok verdict) ∧
  store_inv (is_rate_limited now ip store).2 ∧
  store_inv (cleanup_pass now store).
Proof.
  intros Hinv. destruct (is_rate_limited_inv now ip store Hinv) as [Hok Hnext].
  repeat split; [done | done |]. by apply cleanup_pass_inv.
Qed.

Lemma store_invariant_preserved_witness :
  let store : gmap string (gmap string Z) :=
    <["10.0.0.7" := entry 5 100]> (<["10.0.0.8" := entry 6 0]> ∅) in
  store_inv store ∧
  (∃ verdict, (is_rate_limited 130 "10.0.0.7" store).1 = Ok verdict) ∧
  store_inv (is_rate_limited 130 "10.0.0.7" store).2 ∧
  store_inv (cleanup_pass 130 store).
Proof.
  intros store.
  assert (store_inv store) as Hinv.
  { apply map_Forall_insert_2; [apply entry_ok_entry; unfold RATE_LIMIT_MAX; lia |].
    apply map_Forall_insert_2; [apply entry_ok_entry; unfold RATE_LIMIT_MAX; lia |].
    apply store_inv_empty. }
  split; [exact Hinv |].
  exact (store_invariant_preserved 130 "10.0.0.7" store Hinv).
Defined.

(** The invariant holds in every store the process can reach. *)
Corollary run_inv ops : store_inv (run ops).
Proof.
  unfold run. generalize store_inv_empty.
  generalize (∅ : gmap string (gmap string Z)).
  induction ops as [| o ops IH]; intros store Hinv; cbn; [done |].
  apply IH. destruct o as [now ip | now]; cbn.
  - by apply is_rate_limited_inv.
  - by apply cleanup_pass_inv.
Qed.

(** A call for one IP leaves the entries of the others alone. *)
Lemma is_rate_limited_other now ip ip' (store : gmap string (gmap string Z)) :
  ip ≠ ip' → (is_rate_limited now ip store).2 !! ip' = store !! ip'.
Proof.
  intros Hne. unfold is_rate_limited.
  repeat (case_match || case_decide); cbn; by rewrite ?lookup_insert_ne.
Qed.

End RateLimiterFacts.

(** ** File names *)

Module StrFacts.

Lemma rsplit_last_none sep s :
  Str.rsplit_last sep s = None ↔ Str.contains sep s = false.
Proof.
  induction s as [| c s IH]; cbn; [done |].
  destruct (Str.rsplit_last sep s) as [[h t] |].
  - split; [done |]. intros [_ Hs]%orb_false_iff. by apply IH in Hs.
  - destruct (Ascii.eqb c sep); cbn; [done |]. by rewrite IH.
Qed.

Lemma rsplit_last_spec sep s h t :
  Str.rsplit_last sep s = Some (h, t) ↔
  s = h ++ String sep t ∧ Str.contains sep t = false.
Proof.
  split.
  - revert h. induction s as [| c s IH]; intros h; cbn; [done |].
    destruct (Str.rsplit_last sep s) as [[h' t'] |] eqn:Hs.
    + intros [= <- <-]. destruct (IH h' eq_refl) as [-> Ht]. done.
    + destruct (Ascii.eqb c sep) eqn:Hc; [| done].
      apply Ascii.eqb_eq in Hc as ->. intros [= <- <-].
      split; [done |]. by apply rsplit_last_none.
  - intros [-> Ht]. induction h as [| c h IH]; simpl.
    + apply rsplit_last_none in Ht. rewrite Ht. by rewrite Ascii.eqb_refl.
    + by rewrite IH.
Qed.

Lemma contains_app sep h t : Str.contains sep (h ++ String sep t) = true.
Proof.
  induction h as [| c h IH]; simpl.
  - by rewrite Ascii.eqb_refl.
  - rewrite IH. apply orb_true_r.
Qed.

(** [allowed_filename] accepts exactly the names with an extension of the
    allow-list. *)
Lemma allowed_filename_spec fname :
  allowed_filename fname = true ↔ has_allowed_extension fname.
Proof.
  unfold allowed_filename, has_allowed_extension, Str.rsplit1. split.
  - destruct (Str.contains "." fname) eqn:Hdot; cbn; [| done].
    destruct (Str.rsplit_last "." fname) as [[h t] |] eqn:Hsplit.
    + cbn. intros Hin%bool_decide_eq_true.
      apply rsplit_last_spec in Hsplit as [-> Ht]. by exists h, t.
    + apply rsplit_last_none in Hsplit. congruence.
  - intros (h & t & -> & Ht & Hin).
    change (h ++ "." ++ t) with (h ++ String "." t).
    rewrite contains_app. cbn.
    rewrite (proj2 (rsplit_last_spec "." _ h t)) by done.
    cbn. by apply bool_decide_eq_true.
Qed.

Lemma allowed_filename_false fname :
  allowed_filename fname = false ↔ ¬ has_allowed_extension fname.
Proof.
  rewrite <- allowed_filename_spec. by destruct (allowed_filename fname).
Qed.

Lemma append_assoc (a b c : string) : (a ++ b) ++ c = a ++ b ++ c.
Proof.
  induction a as [| x a IH]; [done |].
  change (String x ((a ++ b) ++ c) = String x (a ++ b ++ c)). by rewrite IH.
Qed.

Lemma join_app sep (l1 l2 : list string) :
  l1 ≠ [] → l2 ≠ [] →
  Str.join sep (l1 ++ l2)%list = Str.join sep l1 ++ sep ++ Str.join sep l2.
Proof.
  intros H1 H2. induction l1 as [| a l1 IH]; [done |].
  destruct l1 as [| b l1].
  - destruct l2; [done |]. reflexivity.
  - change (Str.join sep ((a :: b :: l1) ++ l2)%list)
      with (a ++ sep ++ Str.join sep ((b :: l1) ++ l2)%list).
    rewrite IH by done.
    change (Str.join sep (a :: b :: l1)) with (a ++ sep ++ Str.join sep (b :: l1)).
    by rewrite !append_assoc.
Qed.

Lemma dict_get_del {A} (dflt : A) key k d :
  key ≠ k → Json.dict_get dflt k (Json.dict_del key d) = Json.dict_get dflt k d.
Proof.
  intros Hne. induction d as [| [k' v] d IH]; simpl; [done |].
  destruct (String.eqb_spec k' key) as [-> | Hk'].
  - rewrite IH. destruct (String.eqb_spec key k); [done | done].
  - simpl. by rewrite IH.
Qed.

Lemma dict_has_del {A} key (d : list (string * A)) :
  Json.dict_has key (Json.dict_del key d) = false.
Proof.
  induction d as [| [k' v] d IH]; simpl; [done |].
  destruct (String.eqb_spec k' key) as [-> | Hk']; [done |].
  simpl. rewrite IH. by destruct (String.eqb_spec k' key).
Qed.

End StrFacts.


(** ** The dispatcher *)

Module DispatcherFacts.

Import Dispatcher.

Section WithDeployment.
Context `{Deployment}.
Variable server : Z → smtp_attempt.
Variable msg : EmailMessage.

(** A failed attempt transmits nothing; a successful one transmits the
    message once. *)
Lemma attempt_once_cases a :
  (∃ e, attempt_once a msg = (Raise e, [])) ∨ attempt_once a msg = (Ok tt, [EvTransmit msg]).
Proof.
  unfold attempt_once. repeat case_match; eauto.
Qed.



Lemma fails_raised n e : fails server msg n e → raised server msg n = Some e.
Proof. unfold fails, raised. by intros ->. Qed.

(** The loop, whatever the server does: some number [k] of attempts fail in
    a row, each followed by its wait; then either the attempts are used up
    and the loop raises, or the next attempt transmits the message. *)
Lemma send_loop_shape max_attempts : ∀ (remaining : nat) (attempts : Z) (last_exc : option exc),
  ∃ k : nat,
    (k <= remaining)%nat ∧
    (∀ j : nat, (j < k)%nat → ∃ e, fails server msg (attempts + 1 + Z.of_nat j) e) ∧
    ((k = remaining ∧
      send_loop server msg max_attempts remaining attempts last_exc =
        (Raise (all_attempts_failed max_attempts (last_after server msg k attempts last_exc)),
         failed_rounds (attempts + 1) k))
     ∨ ((k < remaining)%nat ∧
        succeeds server msg (attempts + 1 + Z.of_nat k) ∧
        send_loop server msg max_attempts remaining attempts last_exc =
          (Ok tt, (failed_rounds (attempts + 1) k
                   ++ [EvAttempt (attempts + 1 + Z.of_nat k); EvTransmit msg])%list))).
Proof.
  induction remaining as [| remaining IH]; intros attempts last_exc.
  - exists 0%nat. split; [done |]. split; [intros j Hj; lia |]. by left.
  - cbn [send_loop].
    destruct (attempt_once_cases (server (attempts + 1))) as [[e He] | Hok].
    + destruct (IH (attempts + 1) (Some e)) as (k & Hk & Hfail & Hend).
      exists (S k). split; [lia |]. split.
      { intros [| j] Hj.
        - exists e. unfold fails. by rewrite Nat2Z.inj_0, Z.add_0_r, He.
        - destruct (Hfail j ltac:(lia)) as [e' He']. exists e'.
          by replace (attempts + 1 + Z.of_nat (S j)) with (attempts + 1 + 1 + Z.of_nat j) by lia. }
      rewrite He.
      assert (last_after server msg (S k) attempts last_exc
              = last_after server msg k (attempts + 1) (Some e)) as Hlast.
      { destruct k as [| k]; cbn [last_after].
        - unfold raised. change (Z.of_nat 1) with 1. by rewrite He.
        - f_equal. lia. }
      destruct Hend as [[-> ->] | (Hlt & Hsucc & ->)].
      * left. split; [done |]. by rewrite Hlast.
      * right. split; [lia |].
        replace (attempts + 1 + Z.of_nat (S k)) with (attempts + 1 + 1 + Z.of_nat k) by lia.
        done.
    + exists 0%nat. split; [lia |]. split; [intros j Hj; lia |].
      right. split; [lia |]. rewrite Nat2Z.inj_0, Z.add_0_r. split.
      * unfold succeeds. by rewrite Hok.
      * by rewrite Hok.
Qed.

Lemma attempts_of_failed_rounds k : ∀ first,
  attempts_of (failed_rounds first k) = seqZ first (Z.of_nat k).
Proof.
  induction k as [| k IH]; intros first; [done |].
  cbn [failed_rounds]. unfold attempts_of in *. cbn. rewrite IH.
  rewrite (seqZ_cons first (Z.of_nat (S k))) by lia. do 2 f_equal; lia.
Qed.

Lemma length_attempts_of_failed_rounds k first :
  length (attempts_of (failed_rounds first k)) = k.
Proof. rewrite attempts_of_failed_rounds, length_seqZ. lia. Qed.

Lemma transmissions_of_failed_rounds k : ∀ first,
  transmissions_of (failed_rounds first k) = [].
Proof. induction k as [| k IH]; intros first; [done | apply IH]. Qed.

(** Whatever the server does, the call transmits the message it built, at
    most once. *)
Lemma send_loop_transmissions max_attempts remaining attempts last_exc :
  transmissions_of (send_loop server msg max_attempts remaining attempts last_exc).2 = [] ∨
  transmissions_of (send_loop server msg max_attempts remaining attempts last_exc).2 = [msg].
Proof.
  destruct (send_loop_shape max_attempts remaining attempts last_exc)
    as (k & _ & _ & [[_ ->] | (_ & _ & ->)]); cbn [snd].
  - left. apply transmissions_of_failed_rounds.
  - right. unfold transmissions_of. rewrite omap_app.
    fold (transmissions_of (failed_rounds (attempts + 1) k)).
    by rewrite transmissions_of_failed_rounds.
Qed.

(** A call with at least one attempt leaves a trace: an empty trace means
    the dispatcher was not called. *)
Lemma send_loop_trace_nonempty max_attempts remaining attempts last_exc :
  (send_loop server msg max_attempts (S remaining) attempts last_exc).2 ≠ [].
Proof.
  cbn [send_loop]. destruct (attempt_once _ _) as [[[] | e] evs]; [done |].
  by destruct (send_loop _ _ _ _ _ _).
Qed.

End WithDeployment.

(** C4 (amended).  The dispatcher makes at most [max_attempts] attempts.
    Some number [k] of them fail in a row, and every failed attempt [n],
    the last one included, is followed by a wait of [1.0 * 2^(n-1)]
    seconds; then either the attempts are used up and the call raises, or
    attempt [k+1] transmits the message and the call returns.  When all of
    the [max_attempts >= 1] attempts fail, the error raised has the
    exception of the last attempt as its cause. *)
Theorem retry_policy `{Deployment} (server : Z → smtp_attempt) (subject body : string)
    (reply_to : option string) (attachments : option (list (string * list Byte.byte)))
    (max_attempts : Z) :
  let msg := build_message subject body reply_to attachments in
  let out := send_email server subject body reply_to attachments max_attempts in
  (length (attempts_of out.2) <= Z.to_nat max_attempts)%nat ∧
  (∃ k : nat,
     (∀ n, 1 <= n <= Z.of_nat k → ∃ e, fails server msg n e) ∧
     ((k = Z.to_nat max_attempts ∧ (∃ e, out.1 = Raise e) ∧ out.2 = failed_rounds 1 k)
      ∨ ((k < Z.to_nat max_attempts)%nat ∧ succeeds server msg (Z.of_nat k + 1) ∧
         out = (Ok tt, (failed_rounds 1 k
                        ++ [EvAttempt (Z.of_nat k + 1); EvTransmit msg])%list)))) ∧
  (1 <= max_attempts →
   (∀ n, 1 <= n <= max_attempts → ∃ e, fails server msg n e) →
   ∃ e, fails server msg max_attempts e ∧
        out = (Raise (RuntimeErrorFrom
                        ("Failed to send email after " ++ @pretty Z _ max_attempts ++ " attempts") e),
               failed_rounds 1 (Z.to_nat max_attempts))).
Proof.
  intros msg out. subst out. unfold send_email. fold msg.
  destruct (send_loop_shape server msg max_attempts (Z.to_nat max_attempts) 0 None)
    as (k & Hk & Hfail & Hend).
  assert (∀ n, 1 <= n <= Z.of_nat k → ∃ e, fails server msg n e) as Hfail'.
  { intros n Hn. destruct (Hfail (Z.to_nat (n - 1)) ltac:(lia)) as [e He].
    exists e. by replace (0 + 1 + Z.of_nat (Z.to_nat (n - 1))) with n in He by lia. }
  change (0 + 1) with 1 in Hend.
  split; [| split].
  - destruct Hend as [[_ ->] | (Hlt & _ & ->)]; cbn [snd].
    + rewrite length_attempts_of_failed_rounds. lia.
    + unfold attempts_of. rewrite omap_app, length_app.
      fold (attempts_of (failed_rounds 1 k)).
      rewrite length_attempts_of_failed_rounds. cbn. lia.
  - exists k. split; [done |].
    destruct Hend as [[-> ->] | (Hlt & Hsucc & ->)]; [left | right].
    + cbn. eauto.
    + by rewrite (Z.add_comm (Z.of_nat k) 1).
  - intros Hmax Hall.
    destruct (Hall max_attempts ltac:(lia)) as [e He]. exists e. split; [done |].
    destruct Hend as [[-> ->] | (Hlt & Hsucc & _)].
    + f_equal. destruct (Z.to_nat max_attempts) as [| m] eqn:Hm; [lia |].
      cbn [last_after]. rewrite Z.add_0_l, <- Hm, Z2Nat.id by lia.
      rewrite (fails_raised server msg max_attempts e He). done.
    + destruct (Hall (1 + Z.of_nat k) ltac:(lia)) as [e' He'].
      unfold fails in He'. unfold succeeds in Hsucc. congruence.
Qed.

Lemma retry_policy_witness :
  ∃ e, fails (H := Examples.deployment) Examples.down
             (build_message (H := Examples.deployment) "Hello" "Body" None None) 3 e ∧
       send_email (H := Examples.deployment) Examples.down "Hello" "Body" None None 3 =
         (Raise (RuntimeErrorFrom
                   ("Failed to send email after " ++ @pretty Z _ 3 ++ " attempts") e),
          failed_rounds 1 (Z.to_nat 3)).
Proof.
  apply (retry_policy (H := Examples.deployment) Examples.down "Hello" "Body" None None 3).
  - lia.
  - intros n _. exists (EnvError "Connection refused"). reflexivity.
Defined.

(** C4, as stated, fails: with the server down, the third and last attempt
    is followed by a wait of 4 seconds, after which no attempt is made. *)
Lemma wait_after_last_attempt :
  (send_email (H := Examples.deployment) Examples.down "Hello" "Body" None None 3).2 =
    [EvAttempt 1; EvSleep 1; EvAttempt 2; EvSleep 2; EvAttempt 3; EvSleep 4] ∧
  waits_only_before_attempts
    (send_email (H := Examples.deployment) Examples.down "Hello" "Body" None None 3).2 = false.
Proof. split; reflexivity. Qed.



(** *** The type of an attachment *)

Lemma prefix_cons_inv c p r :
  String.prefix (String c p) r = true → ∃ r', r = String c r' ∧ String.prefix p r' = true.
Proof.
  destruct r as [| d r]; cbn; [done |].
  destruct (ascii_dec c d) as [-> | ?]; [eauto | done].
Qed.

Ltac read_suffix H :=
  unfold Str.endswith in H; cbn in H;
  repeat (let r := fresh "r" in apply prefix_cons_inv in H as (r & -> & H));
  match type of H with String.prefix _ ?rest = _ => destruct rest end.

(** The subtype "png" is never produced: the name would have to end both
    in [.png')] and in one of the four image extensions. *)
Lemma attachment_type_never_png fname : (attachment_type fname).2 ≠ "png".
Proof.
  unfold attachment_type.
  destruct (Str.endswith_any _ _) eqn:Himg; [| repeat case_match; cbn; done].
  cbn [snd].
  destruct (Str.endswith (Str.lower fname) ".png')") eqn:Hbug; [| case_match; done].
  exfalso. unfold Str.endswith_any, Str.endswith in Himg, Hbug.
  set (r := String.rev (Str.lower fname)) in *. clearbody r.
  read_suffix Hbug; cbn in Himg; done.
Qed.

(** A name in [.png] is typed image/gif. *)
Lemma attachment_type_png fname :
  Str.endswith (Str.lower fname) ".png" = true → attachment_type fname = ("image", "gif").
Proof.
  intros Hsuf. unfold attachment_type, Str.endswith_any, Str.endswith in *.
  set (r := String.rev (Str.lower fname)) in *. clearbody r.
  read_suffix Hsuf; reflexivity.
Qed.

(** The other extensions are typed as listed. *)
Lemma attachment_type_others fname :
  (Str.endswith (Str.lower fname) ".jpg" = true → attachment_type fname = ("image", "jpeg")) ∧
  (Str.endswith (Str.lower fname) ".jpeg" = true → attachment_type fname = ("image", "jpeg")) ∧
  (Str.endswith (Str.lower fname) ".gif" = true → attachment_type fname = ("image", "gif")) ∧
  (Str.endswith (Str.lower fname) ".pdf" = true → attachment_type fname = ("application", "pdf")) ∧
  (Str.endswith (Str.lower fname) ".txt" = true → attachment_type fname = ("text", "plain")).
Proof.
  unfold attachment_type, Str.endswith_any, Str.endswith.
  set (r := String.rev (Str.lower fname)). clearbody r.
  repeat split; intros Hsuf; read_suffix Hsuf; reflexivity.
Qed.

(** C7, at a [.png] attachment: the part of the outgoing message is typed
    image/gif, not image/png. *)
Theorem png_attachment_typed_gif :
  attachment_type "photo.png" = ("image", "gif") ∧
  msg_attachments
    (build_message (H := Examples.deployment) "Hello" "Body" None (Some [("photo.png", [])])) =
    [{| part_filename := "photo.png"; part_maintype := "image";
        part_subtype := "gif"; part_content := [] |}].
Proof. split; reflexivity. Qed.

End DispatcherFacts.

(** ** The handler *)

Module HandlerFacts.

Import Dispatcher Handler.

Section WithDeployment.
Context `{Deployment}.

(** *** Attachments *)

(** C3.  For an uploaded file with a name: when the sanitized name has no
    extension of the allow-list (compared without case), the file is
    refused as "type not allowed", whatever its size, so the extension is
    checked first; with an allowed extension, a file of at most 8 MiB is
    accepted and one of 8 MiB + 1 byte is refused as "too large". *)
Theorem attachment_validation (file_storage : FileStorage) (filename : string)
    (attachments : list (string * list Byte.byte)) :
  fs_filename file_storage = Some filename →
  filename ≠ "" →
  let fname := secure_filename filename in
  (¬ has_allowed_extension fname →
   receive_file file_storage attachments = inl (type_not_allowed fname)) ∧
  (has_allowed_extension fname → fs_size file_storage <= 8 * 1024 * 1024 →
   receive_file file_storage attachments =
     inr (Json.dict_set fname (fs_content file_storage) attachments)) ∧
  (has_allowed_extension fname → fs_size file_storage = 8 * 1024 * 1024 + 1 →
   receive_file file_storage attachments = inl (too_large fname)).
Proof.
  intros Hname Hnonempty fname. unfold receive_file. rewrite Hname.
  destruct filename as [| c rest]; [done |]. cbn [Str.nonempty negb]. fold fname.
  repeat split.
  - intros Hbad%StrFacts.allowed_filename_false. by rewrite Hbad.
  - intros Hgood%StrFacts.allowed_filename_spec Hsize. rewrite Hgood. cbn.
    unfold MAX_ATTACHMENT_SIZE. case_decide; [lia | done].
  - intros Hgood%StrFacts.allowed_filename_spec Hsize. rewrite Hgood. cbn.
    unfold MAX_ATTACHMENT_SIZE. case_decide; [done | lia].
Qed.

(** A refused file ends the request there: nothing is dispatched. *)
Lemma receive_files_refused now sent_at server req store refused :
  (RateLimiter.is_rate_limited now (client_ip req) store).1 = Ok false →
  parse_input req = inl refused →
  (receive_send_email now sent_at server req store).1.1 = refused ∧
  (receive_send_email now sent_at server req store).2 = [].
Proof.
  intros Hrate Hparse. unfold receive_send_email.
  destruct (RateLimiter.is_rate_limited _ _ _) as [[[|] | e] store']; cbn in Hrate; try done.
  by rewrite Hparse.
Qed.

(** *** The composed body *)

(** Without the key "meta" the body has no Meta section; with it, the body
    is the same text followed by the section. *)
Lemma build_email_body_meta sent_at data :
  Json.dict_has "meta" data = true →
  Json.dict_has "meta" (Json.dict_del "meta" data) = false ∧
  build_email_body sent_at data =
    build_email_body sent_at (Json.dict_del "meta" data)
    ++ Str.newline ++ "Meta:" ++ Str.newline
    ++ Json.dumps_indent2 (Json.dict_get JNull "meta" data).
Proof.
  intros Hhas. split; [apply StrFacts.dict_has_del |].
  unfold build_email_body. rewrite Hhas, StrFacts.dict_has_del.
  rewrite !StrFacts.dict_get_del by done. cbv zeta.
  match goal with
  | |- Str.join _ (?lines ++ _)%list = _ => rewrite (StrFacts.join_app _ lines)
  end; [done | | done].
  intros [_ ?]%app_eq_nil. done.
Qed.

(** The handler always passes the key "meta", so the body it hands to the
    dispatcher always carries the section, with [null] for a missing value. *)
Lemma dispatched_body_has_meta sent_at server payload attachments msg :
  msg ∈ transmissions_of (validate_and_send sent_at server payload attachments).2 →
  ∃ text, msg_content msg =
    text ++ Str.newline ++ "Meta:" ++ Str.newline
         ++ Json.dumps_indent2 (Json.dict_get JNull "meta" payload).
Proof.
  unfold validate_and_send. destruct (negb _); cbn [snd]; [by intros ?%elem_of_nil |].
  unfold send_email.
  match goal with
  | |- context [send_loop ?srv ?m ?mx ?r ?a ?l] =>
      destruct (DispatcherFacts.send_loop_transmissions srv m mx r a l) as [Htr | Htr];
      destruct (send_loop srv m mx r a l) as [[[] | e] tr]; cbn [snd] in *; rewrite Htr
  end; try by intros ?%elem_of_nil.
  all: intros ->%list_elem_of_singleton; cbn [msg_content build_message];
    match goal with
    | |- context [build_email_body ?at_ ?data] =>
        rewrite (proj2 (build_email_body_meta at_ data eq_refl))
    end; eexists; reflexivity.
Qed.

(** *** The subject *)

(** A subject that is missing or falsy ([None], the empty string, ...) is
    replaced by the default. *)
Lemma subject_default payload :
  Json.truthy (Json.dict_get JNull "subject" payload) = false →
  subject_of payload = "GOP3 Fan Message".
Proof. intros Hfalsy. unfold subject_of, Json.py_or. by rewrite Hfalsy. Qed.

(** A subject made of white space only is non-empty, hence kept, and then
    trimmed to the empty string. *)
Lemma subject_blank payload s :
  Json.dict_get JNull "subject" payload = JStr s →
  Str.nonempty s = true → Str.strip s = "" →
  subject_of payload = "".
Proof.
  intros Hs Hnonempty Hstrip. unfold subject_of, Json.py_or, safe_text.
  rewrite Hs. cbn. rewrite Hnonempty. cbn. by rewrite Hnonempty.
Qed.

(** *** Required fields *)

(** C5.  For every request that passes the rate check and whose payload is
    read: when the name, the email or the message is empty once trimmed,
    the handler answers 422 "missing required fields" and the dispatcher is
    not called. *)
Theorem missing_fields_rejected now sent_at server req store payload attachments :
  (RateLimiter.is_rate_limited now (client_ip req) store).1 = Ok false →
  parse_input req = inr (JDict payload, attachments) →
  safe_text (Json.dict_get JNull "name" payload) = "" ∨
  safe_text (Json.dict_get JNull "email" payload) = "" ∨
  safe_text (Json.dict_get JNull "message" payload) = "" →
  (receive_send_email now sent_at server req store).1.1 = missing_fields ∧
  status_of (receive_send_email now sent_at server req store).1.1 = 422 ∧
  (receive_send_email now sent_at server req store).2 = [].
Proof.
  intros Hrate Hparse Hmissing. unfold receive_send_email.
  destruct (RateLimiter.is_rate_limited _ _ _) as [[[|] | e] store']; cbn in Hrate; try done.
  rewrite Hparse. unfold validate_and_send.
  assert (Str.nonempty (safe_text (Json.dict_get JNull "name" payload))
          && Str.nonempty (safe_text (Json.dict_get JNull "email" payload))
          && Str.nonempty (safe_text (Json.dict_get JNull "message" payload)) = false) as ->.
  { destruct Hmissing as [-> | [-> | ->]]; cbn;
      rewrite ?andb_false_r; reflexivity. }
  done.
Qed.

(** The dispatcher is called only by requests answered 200 or 500. *)
Lemma dispatch_only_when_valid now sent_at server req store :
  (receive_send_email now sent_at server req store).2 ≠ [] →
  status_of (receive_send_email now sent_at server req store).1.1 = 200 ∨
  status_of (receive_send_email now sent_at server req store).1.1 = 500.
Proof.
  unfold receive_send_email.
  destruct (RateLimiter.is_rate_limited _ _ _) as [[[|] | e] store']; cbn; try done.
  destruct (parse_input req) as [refused | [[] attachments]]; cbn; try done.
  unfold validate_and_send. destruct (negb _); cbn; [done |].
  destruct (send_email _ _ _ _ _ _) as [[[] | e] tr]; cbn; auto.
Qed.

(** *** The rate check comes first *)

Lemma is_rate_limited_under_limit now ip (store : gmap string (gmap string Z)) next :
  RateLimiter.under_limit now ip store next →
  ∃ store', RateLimiter.is_rate_limited now ip store = (Ok false, store') ∧
            (store' !! ip) ≫= (.!! "count") = Some next.
Proof.
  intros [[Hclosed ->] | (data & ws & c & Hip & Hws & Hin & Hc & Hlt & ->)].
  - rewrite (RateLimiterFacts.is_rate_limited_reset _ _ _ Hclosed).
    eexists. split; [done |]. rewrite lookup_insert_eq. cbn.
    apply RateLimiterFacts.entry_count.
  - unfold RateLimiter.is_rate_limited. rewrite Hip.
    case_decide as Hempty; [by rewrite Hempty in Hws |].
    rewrite Hws. case_decide; [lia |]. rewrite Hc. case_decide; [lia |].
    eexists. split; [done |]. rewrite lookup_insert_eq. cbn. apply lookup_insert_eq.
Qed.

Lemma store_after_request now sent_at server req store :
  (receive_send_email now sent_at server req store).1.2 =
  (RateLimiter.is_rate_limited now (client_ip req) store).2.
Proof.
  unfold receive_send_email.
  destruct (RateLimiter.is_rate_limited _ _ _) as [[[|] | e] store']; cbn; try done.
  destruct (parse_input req) as [refused | [[] attachments]]; cbn; try done.
  by destruct (validate_and_send _ _ _ _).
Qed.

Lemma receive_files_status fields : ∀ attachments refused,
  receive_files fields attachments = inl refused → status_of refused = 400.
Proof.
  induction fields as [| [key file_storage] fields IH]; intros attachments refused; cbn; [done |].
  destruct (receive_file file_storage attachments) as [r | attachments'] eqn:Hfile.
  - intros [= <-]. unfold receive_file in Hfile.
    repeat case_match; by simplify_eq.
  - apply IH.
Qed.

Lemma parse_input_status req refused :
  parse_input req = inl refused → status_of refused = 400.
Proof.
  unfold parse_input. destruct (match content_type req with Some _ => _ | None => _ end).
  - repeat case_match; intros; by simplify_eq.
  - destruct (receive_files (files req) []) as [r | attachments] eqn:Hfiles; [| done].
    intros [= <-]. by eapply receive_files_status.
Qed.

(** A request that passes the rate check is answered 200, 400, 422 or 500. *)
Lemma status_when_let_through now sent_at server req store store' :
  RateLimiter.is_rate_limited now (client_ip req) store = (Ok false, store') →
  status_of (receive_send_email now sent_at server req store).1.1 ∈ [200; 400; 422; 500].
Proof.
  intros Hrate. unfold receive_send_email. rewrite Hrate.
  destruct (parse_input req) as [refused | [payload attachments]] eqn:Hparse.
  - cbn. rewrite (parse_input_status _ _ Hparse). set_solver.
  - destruct payload; cbn; try set_solver.
    unfold validate_and_send. destruct (negb _); cbn; [set_solver |].
    destruct (send_email _ _ _ _ _ _) as [[[] | e] tr]; cbn; set_solver.
Qed.

(** C10.  The request is counted before anything of it is read: when its
    IP is under the limit, the count stored for that IP after the request
    is the previous count plus 1 (1 when no window was open), for every
    request and every behaviour of the mail server, hence whatever the
    response, which is one of 200, 400, 422 and 500; the store is the one
    the rate check leaves. *)
Theorem quota_consumed_first now sent_at server req store next :
  RateLimiter.under_limit now (client_ip req) store next →
  (receive_send_email now sent_at server req store).1.2 =
    (RateLimiter.is_rate_limited now (client_ip req) store).2 ∧
  ((receive_send_email now sent_at server req store).1.2 !! client_ip req)
    ≫= (.!! "count") = Some next ∧
  status_of (receive_send_email now sent_at server req store).1.1 ∈ [200; 400; 422; 500].
Proof.
  intros Hunder. split; [apply store_after_request |].
  rewrite store_after_request.
  destruct (is_rate_limited_under_limit _ _ _ _ Hunder) as (store' & Hrate & Hcount).
  split; [by rewrite Hrate | by eapply status_when_let_through].
Qed.

End WithDeployment.

(** *** At concrete requests *)

Lemma attachment_validation_witness :
  receive_file (H := Examples.deployment) (Examples.upload "setup.exe" 9000000) [] =
    inl (type_not_allowed "setup.exe") ∧
  receive_file (H := Examples.deployment) (Examples.upload "Notes.TXT" (8 * 1024 * 1024)) [] =
    inr [("Notes.TXT", [])] ∧
  receive_file (H := Examples.deployment) (Examples.upload "scan.pdf" (8 * 1024 * 1024 + 1)) [] =
    inl (too_large "scan.pdf").
Proof.
  split; [| split].
  - apply (attachment_validation (H := Examples.deployment)
             (Examples.upload "setup.exe" 9000000) "setup.exe" []); [reflexivity | done |].
    intros Hgood%StrFacts.allowed_filename_spec. vm_compute in Hgood. discriminate Hgood.
  - apply (attachment_validation (H := Examples.deployment)
             (Examples.upload "Notes.TXT" (8 * 1024 * 1024)) "Notes.TXT" []);
      [reflexivity | done | | reflexivity].
    apply StrFacts.allowed_filename_spec. reflexivity.
  - apply (attachment_validation (H := Examples.deployment)
             (Examples.upload "scan.pdf" (8 * 1024 * 1024 + 1)) "scan.pdf" []);
      [reflexivity | done | | reflexivity].
    apply StrFacts.allowed_filename_spec. reflexivity.
Defined.

Lemma missing_fields_rejected_witness :
  let out := receive_send_email (H := Examples.deployment) 1000 Examples.sent_at Examples.up
               (Examples.json_request (JDict Examples.blank_name)) ∅ in
  out.1.1 = missing_fields ∧ status_of out.1.1 = 422 ∧ out.2 = [].
Proof.
  apply (missing_fields_rejected (H := Examples.deployment) 1000 Examples.sent_at Examples.up
           (Examples.json_request (JDict Examples.blank_name)) ∅ Examples.blank_name []).
  - reflexivity.
  - reflexivity.
  - left. reflexivity.
Defined.

Lemma quota_consumed_first_witness :
  let store : gmap string (gmap string Z) := <["203.0.113.9" := RateLimiter.entry 3 980]> ∅ in
  let out := receive_send_email (H := Examples.deployment) 1000 Examples.sent_at Examples.down
               (Examples.json_request (JDict Examples.ann)) store in
  out.1.2 = (RateLimiter.is_rate_limited 1000 "203.0.113.9" store).2 ∧
  (out.1.2 !! "203.0.113.9") ≫= (.!! "count") = Some 4 ∧
  status_of out.1.1 ∈ [200; 400; 422; 500].
Proof.
  intros store.
  apply (quota_consumed_first (H := Examples.deployment) 1000 Examples.sent_at Examples.down
           (Examples.json_request (JDict Examples.ann)) store 4).
  right. exists (RateLimiter.entry 3 980), 980, 3.
  split; [apply lookup_insert_eq |].
  split; [apply RateLimiterFacts.entry_window_start |].
  split; [unfold RATE_LIMIT_WINDOW; lia |].
  split; [apply RateLimiterFacts.entry_count |].
  split; [unfold RATE_LIMIT_MAX; lia | reflexivity].
Defined.

(** The four responses of a request let through, each with the request
    counted. *)
Example counted_whatever_the_response :
  let count_after (out : response * gmap string (gmap string Z) * list event) :=
    (status_of out.1.1, (out.1.2 !! "203.0.113.9") ≫= (.!! "count")) in
  count_after (receive_send_email (H := Examples.deployment) 1000 Examples.sent_at Examples.up
                 (Examples.json_request (JDict Examples.ann)) ∅) = (200, Some 1) ∧
  count_after (receive_send_email (H := Examples.deployment) 1000 Examples.sent_at Examples.up
                 Examples.null_request ∅) = (400, Some 1) ∧
  count_after (receive_send_email (H := Examples.deployment) 1000 Examples.sent_at Examples.up
                 (Examples.json_request (JDict Examples.blank_name)) ∅) = (422, Some 1) ∧
  count_after (receive_send_email (H := Examples.deployment) 1000 Examples.sent_at Examples.down
                 (Examples.json_request (JDict Examples.ann)) ∅) = (500, Some 1).
Proof. repeat split; vm_compute; reflexivity. Qed.

(** C2, at a submission without [meta]: the body that is sent ends with a
    Meta section holding [null]. *)
Theorem absent_meta_written_as_null :
  msg_content <$>
    transmissions_of
      (receive_send_email (H := Examples.deployment) 1000 Examples.sent_at Examples.up
         (Examples.json_request (JDict Examples.ann)) ∅).2 =
  [Str.join Str.newline
     ["New message from GOP3 Fan Page contact form"; "";
      "Sent at: 2025-01-01T00:00:00Z"; ""; "----";
      "Name: Ann"; "Email: ann@x.com"; "Subject: GOP3 Fan Message";
      ""; "Message:"; "Hi"; ""; "----"; "Meta:"; "null"]].
Proof. vm_compute. reflexivity. Qed.

(** C8, at a subject of three spaces: the subject the handler goes on with
    is empty, not the default; the message goes out under
    "[GOP3 Fan]  (from Ann)". *)
Theorem blank_subject_not_defaulted :
  subject_of (H := Examples.deployment) Examples.ann_blank_subject = "" ∧
  msg_subject <$>
    transmissions_of
      (receive_send_email (H := Examples.deployment) 1000 Examples.sent_at Examples.up
         (Examples.json_request (JDict Examples.ann_blank_subject)) ∅).2 =
  ["[GOP3 Fan]  (from Ann)"].
Proof. split; vm_compute; reflexivity. Qed.

End HandlerFacts.

(** ** Runs of the rate limiter and the sweep *)

Module RateLimiterRuns.

Import RateLimiter RateLimiterFacts.

Lemma delete_keys_lookup keys : ∀ (store : gmap string (gmap string Z)) k,
  foldl (λ m k, delete k m) store keys !! k =
    if decide (k ∈ keys) then None else store !! k.
Proof.
  induction keys as [| k0 keys IH]; intros store k; cbn [foldl].
  - by rewrite decide_False by apply not_elem_of_nil.
  - rewrite IH. destruct (decide (k ∈ keys)) as [Hin | Hout].
    + by rewrite decide_True by (by apply list_elem_of_further).
    + destruct (decide (k = k0)) as [-> | Hne].
      * rewrite lookup_delete_eq. by rewrite decide_True by apply list_elem_of_here.
      * rewrite lookup_delete_ne by done.
        rewrite decide_False; [done |]. by intros [? | ?]%elem_of_cons.
Qed.

Lemma elem_of_keys_to_delete cutoff (store : gmap string (gmap string Z)) k :
  k ∈ keys_to_delete cutoff store ↔
  ∃ data, store !! k = Some data ∧ default 0 (data !! "window_start") < cutoff.
Proof.
  unfold keys_to_delete. rewrite list_elem_of_fmap. split.
  - intros [[k' data] [-> [Hlt Hin]%list_elem_of_filter]].
    apply elem_of_map_to_list in Hin. eauto.
  - intros (data & Hdata & Hlt). exists (k, data). split; [done |].
    apply list_elem_of_filter. split; [done |]. by apply elem_of_map_to_list.
Qed.

(** What a sweep leaves of an entry. *)
Lemma cleanup_pass_lookup now (store : gmap string (gmap string Z)) ip :
  cleanup_pass now store !! ip =
    match store !! ip with
    | Some data =>
        if decide (default 0 (data !! "window_start") < now - RATE_LIMIT_WINDOW * 2)
        then None else Some data
    | None => None
    end.
Proof.
  unfold cleanup_pass. cbv zeta. rewrite delete_keys_lookup.
  destruct (store !! ip) as [data |] eqn:Hip.
  - destruct (decide (default 0 (data !! "window_start") < now - RATE_LIMIT_WINDOW * 2))
      as [Hstale | Hrecent].
    + rewrite decide_True; [done |]. apply elem_of_keys_to_delete. eauto.
    + rewrite decide_False; [done |].
      intros (data' & Hdata' & Hlt)%elem_of_keys_to_delete. by simplify_eq.
  - by destruct (decide (ip ∈ _)).
Qed.

(** X1.  A sweep at [now] keeps, unchanged, exactly the entries whose
    [window_start] (0 when the key is missing) is at least [now - 120], and
    deletes the others; a second sweep at the same time deletes nothing
    more. *)
Theorem sweep_keeps_recent now (store : gmap string (gmap string Z)) :
  (∀ ip, cleanup_pass now store !! ip =
           match store !! ip with
           | Some data =>
               if decide (default 0 (data !! "window_start") < now - RATE_LIMIT_WINDOW * 2)
               then None else Some data
           | None => None
           end) ∧
  cleanup_pass now (cleanup_pass now store) = cleanup_pass now store.
Proof.
  split; [apply cleanup_pass_lookup |].
  apply map_eq. intros ip. rewrite (cleanup_pass_lookup now (cleanup_pass now store)).
  rewrite cleanup_pass_lookup.
  destruct (store !! ip) as [data |]; [| done].
  case_decide as Hstale; [done |]. by rewrite decide_False.
Qed.

(** The verdict for [ip], and what the call leaves for [ip], depend on the
    entry of [ip] only. *)
Lemma is_rate_limited_local now ip (s1 s2 : gmap string (gmap string Z)) :
  s1 !! ip = s2 !! ip →
  (is_rate_limited now ip s1).1 = (is_rate_limited now ip s2).1 ∧
  (is_rate_limited now ip s1).2 !! ip = (is_rate_limited now ip s2).2 !! ip.
Proof.
  intros Heq. unfold is_rate_limited. rewrite <- Heq.
  destruct (s1 !! ip) as [data |] eqn:H1; [| cbn; by rewrite !lookup_insert_eq].
  case_decide; [cbn; by rewrite !lookup_insert_eq |].
  destruct (data !! "window_start") as [ws |]; [| cbn; split; congruence].
  case_decide; [cbn; by rewrite !lookup_insert_eq |].
  destruct (data !! "count") as [c |]; [| cbn; split; congruence].
  case_decide; [cbn; split; congruence |]. cbn. by rewrite !lookup_insert_eq.
Qed.

(** X2.  The sweep is invisible to the rate check: in a store that
    satisfies the invariant, a request at or after the time of a sweep gets
    the verdict, and leaves the entry, it would have got and left without
    the sweep. *)
Theorem sweep_transparent now now' ip (store : gmap string (gmap string Z)) :
  store_inv store →
  now <= now' →
  (is_rate_limited now' ip (cleanup_pass now store)).1 = (is_rate_limited now' ip store).1 ∧
  (is_rate_limited now' ip (cleanup_pass now store)).2 !! ip =
    (is_rate_limited now' ip store).2 !! ip.
Proof.
  intros Hinv Hlater.
  pose proof (cleanup_pass_lookup now store ip) as Hswept.
  destruct (store !! ip) as [data |] eqn:Hip; [| by apply is_rate_limited_local; rewrite Hip].
  case_decide as Hstale; [| by apply is_rate_limited_local; rewrite Hip].
  destruct (Hinv ip data Hip) as (c & ws & Hc & Hbound & Hws).
  rewrite Hws in Hstale. cbn in Hstale. unfold RATE_LIMIT_WINDOW in Hstale.
  unfold is_rate_limited. rewrite Hswept, Hip.
  case_decide; [cbn; by rewrite !lookup_insert_eq |].
  rewrite Hws. unfold RATE_LIMIT_WINDOW. case_decide; [| lia].
  cbn. by rewrite !lookup_insert_eq.
Qed.

Lemma sweep_transparent_witness :
  let store : gmap string (gmap string Z) :=
    <["10.0.0.7" := entry 6 100]> (<["10.0.0.8" := entry 2 290]> ∅) in
  (is_rate_limited 300 "10.0.0.7" (cleanup_pass 300 store)).1
    = (is_rate_limited 300 "10.0.0.7" store).1 ∧
  (is_rate_limited 300 "10.0.0.7" (cleanup_pass 300 store)).2 !! "10.0.0.7"
    = (is_rate_limited 300 "10.0.0.7" store).2 !! "10.0.0.7".
Proof.
  intros store. apply (sweep_transparent 300 300 "10.0.0.7" store); [| lia].
  apply map_Forall_insert_2; [apply entry_ok_entry; unfold RATE_LIMIT_MAX; lia |].
  apply map_Forall_insert_2; [apply entry_ok_entry; unfold RATE_LIMIT_MAX; lia |].
  apply store_inv_empty.
Defined.

Lemma requests_local ip ts : ∀ (s1 s2 : gmap string (gmap string Z)),
  s1 !! ip = s2 !! ip →
  (requests ip ts s1).1 = (requests ip ts s2).1 ∧
  (requests ip ts s1).2 !! ip = (requests ip ts s2).2 !! ip.
Proof.
  induction ts as [| t ts IH]; intros s1 s2 Heq; cbn [requests]; [done |].
  destruct (is_rate_limited_local t ip s1 s2 Heq) as [Hv Hs].
  destruct (is_rate_limited t ip s1) as [v1 s1'], (is_rate_limited t ip s2) as [v2 s2'].
  cbn in Hv, Hs. subst v2. destruct (IH s1' s2' Hs) as [Hvs Hss].
  destruct (requests ip ts s1') as [vs1 s1''], (requests ip ts s2') as [vs2 s2''].
  cbn in *. by subst vs2.
Qed.

(** X4.  A client is judged on its own requests: in a run that mixes the
    requests of several IPs, the verdicts for one IP, and the entry it ends
    with, are those of its own requests served alone. *)
Theorem serve_per_ip ip reqs : ∀ store : gmap string (gmap string Z),
  of_ip ip (serve reqs store).1 = (requests ip (of_ip ip reqs) store).1 ∧
  (serve reqs store).2 !! ip = (requests ip (of_ip ip reqs) store).2 !! ip.
Proof.
  induction reqs as [| [ip' now] reqs IH]; intros store; [done |].
  cbn [serve]. unfold of_ip in *.
  destruct (is_rate_limited now ip' store) as [v store1] eqn:Hcall.
  specialize (IH store1). destruct (serve reqs store1) as [vs store2].
  cbn [fst snd] in *.
  destruct (decide (ip' = ip)) as [-> | Hne].
  - rewrite !filter_cons_True by done. cbn [fmap list_fmap snd requests].
    rewrite Hcall. destruct (requests ip _ store1) as [vs' store2'].
    cbn in *. destruct IH as [-> ->]. done.
  - rewrite !filter_cons_False by done.
    assert (store1 !! ip = store !! ip) as Hsame.
    { pose proof (is_rate_limited_other now ip' ip store Hne) as Hother.
      by rewrite Hcall in Hother. }
    destruct (requests_local ip ((filter (λ p, p.1 = ip) reqs).*2) store1 store Hsame)
      as [Hv Hs].
    cbn in *. destruct IH as [-> ->]. done.
Qed.





(** X20.  In every store the process can reach from the empty one by rate
    checks and sweeps, a rate check returns a verdict: the lookups of
    "window_start" and "count" never raise KeyError. *)
Theorem rate_check_never_raises ops now ip :
  ∃ verdict, (is_rate_limited now ip (run ops)).1 = Ok verdict.
Proof. apply is_rate_limited_inv, run_inv. Qed.

End RateLimiterRuns.

(** ** Trimming and case *)

Module TextFacts.

Lemma lstrip_idem s : Str.lstrip (Str.lstrip s) = Str.lstrip s.
Proof.
  induction s as [| c s IH]; [done |]. cbn [Str.lstrip].
  destruct (Str.is_space c) eqn:Hc; [done |].
  cbn [Str.lstrip]. by rewrite Hc.
Qed.

Lemma rstrip_idem s : Str.rstrip (Str.rstrip s) = Str.rstrip s.
Proof.
  induction s as [| c s IH]; [done |]. cbn [Str.rstrip].
  destruct (Str.rstrip s) as [| d kept] eqn:Hs.
  - destruct (Str.is_space c) eqn:Hc; [done |]. cbn [Str.rstrip]. by rewrite Hc.
  - change (Str.rstrip (String c (String d kept)))
      with (match Str.rstrip (String d kept) with
            | EmptyString => if Str.is_space c then EmptyString else String c EmptyString
            | String e k => String c (String e k)
            end).
    by rewrite IH.
Qed.

(** Trimming the left of a string trimmed on the right leaves it trimmed
    on the right. *)
Lemma rstrip_lstrip s : Str.rstrip s = s → Str.rstrip (Str.lstrip s) = Str.lstrip s.
Proof.
  induction s as [| c s IH]; [done |]. intros Hfix. cbn [Str.lstrip].
  destruct (Str.is_space c) eqn:Hc; [| done].
  apply IH. cbn [Str.rstrip] in Hfix. rewrite Hc in Hfix.
  destruct (Str.rstrip s) as [| d kept]; [done |]. by injection Hfix.
Qed.

Lemma rstrip_strip s : Str.rstrip (Str.strip s) = Str.strip s.
Proof. unfold Str.strip. apply rstrip_lstrip, rstrip_idem. Qed.

Lemma lstrip_strip s : Str.lstrip (Str.strip s) = Str.strip s.
Proof. unfold Str.strip. apply lstrip_idem. Qed.

Lemma strip_idem s : Str.strip (Str.strip s) = Str.strip s.
Proof.
  unfold Str.strip at 1. by rewrite rstrip_strip, lstrip_strip.
Qed.

Lemma safe_text_str `{Deployment} s : safe_text (JStr s) = Str.strip s.
Proof. unfold safe_text. by destruct s. Qed.

Lemma safe_text_again `{Deployment} value : safe_text (JStr (safe_text value)) = safe_text value.
Proof.
  rewrite safe_text_str. unfold safe_text.
  destruct (negb (Json.truthy value)); [done | apply strip_idem].
Qed.

(** X6.  [safe_text] returns a trimmed text, and trimmed text passes
    through it unchanged: applying it to its own result, as
    [build_email_body] does to the fields the handler has already
    normalized, changes nothing. *)
Theorem safe_text_trimmed `{Deployment} (value : json) :
  Str.lstrip (safe_text value) = safe_text value ∧
  Str.rstrip (safe_text value) = safe_text value ∧
  safe_text (JStr (safe_text value)) = safe_text value.
Proof.
  rewrite safe_text_str. unfold safe_text.
  destruct (negb (Json.truthy value)); [done |].
  by rewrite lstrip_strip, rstrip_strip, strip_idem.
Qed.

Lemma lower_char_idem c : Str.lower_char (Str.lower_char c) = Str.lower_char c.
Proof. destruct c as [[] [] [] [] [] [] [] []]; reflexivity. Qed.

Lemma lower_char_dot c : Ascii.eqb (Str.lower_char c) "." = Ascii.eqb c ".".
Proof. destruct c as [[] [] [] [] [] [] [] []]; reflexivity. Qed.

Lemma lower_idem s : Str.lower (Str.lower s) = Str.lower s.
Proof.
  induction s as [| c s IH]; [done |]. cbn [Str.lower]. by rewrite lower_char_idem, IH.
Qed.

Lemma contains_lower s : Str.contains "." (Str.lower s) = Str.contains "." s.
Proof.
  induction s as [| c s IH]; [done |]. cbn [Str.lower Str.contains].
  by rewrite lower_char_dot, IH.
Qed.

Lemma rsplit_last_lower s :
  Str.rsplit_last "." (Str.lower s) =
    (λ ht : string * string, (Str.lower ht.1, Str.lower ht.2)) <$> Str.rsplit_last "." s.
Proof.
  induction s as [| c s IH]; [done |]. cbn [Str.lower Str.rsplit_last].
  rewrite IH, lower_char_dot.
  destruct (Str.rsplit_last "." s) as [[h t] |]; cbn; [done |].
  by destruct (Ascii.eqb c ".").
Qed.

(** X7.  Case does not matter: a file name is allowed, and typed, exactly
    as its lower-case form is. *)
Theorem case_insensitive (fname : string) :
  allowed_filename (Str.lower fname) = allowed_filename fname ∧
  Dispatcher.attachment_type (Str.lower fname) = Dispatcher.attachment_type fname.
Proof.
  split.
  - unfold allowed_filename, Str.rsplit1.
    rewrite contains_lower, rsplit_last_lower.
    destruct (Str.contains "." fname); cbn; [| done].
    destruct (Str.rsplit_last "." fname) as [[h t] |]; cbn; [| done].
    by rewrite lower_idem.
  - unfold Dispatcher.attachment_type. by rewrite lower_idem.
Qed.

End TextFacts.

(** ** The dispatcher, whatever the server does *)

Module DispatcherRuns.

Import Dispatcher DispatcherFacts.

Section WithDeployment.
Context `{Deployment}.
Variable server : Z → smtp_attempt.

Lemma sleeps_of_failed_rounds k : ∀ first,
  length (sleeps_of (failed_rounds first k)) = k ∧
  (1 <= first →
   total (sleeps_of (failed_rounds first k)) = 2 ^ (first - 1) * (2 ^ Z.of_nat k - 1)).
Proof.
  induction k as [| k IH]; intros first.
  - split; [done |]. intros _. cbn. lia.
  - destruct (IH (first + 1)) as [Hlen Htotal]. split.
    + cbn [failed_rounds]. unfold sleeps_of in *. cbn. by rewrite Hlen.
    + intros Hfirst. cbn [failed_rounds]. unfold sleeps_of in *. cbn [omap list_omap total foldr].
      fold (total (omap (λ ev, match ev with EvSleep d => Some d | _ => None end)
                        (failed_rounds (first + 1) k))).
      rewrite Htotal by lia.
      replace (first + 1 - 1) with (Z.succ (first - 1)) by lia.
      rewrite Z.pow_succ_r by lia.
      rewrite Nat2Z.inj_succ, Z.pow_succ_r by lia. lia.
Qed.

Lemma sleeps_of_app tr1 tr2 : sleeps_of (tr1 ++ tr2) = (sleeps_of tr1 ++ sleeps_of tr2)%list.
Proof. unfold sleeps_of. apply omap_app. Qed.

(** X9.  With [max_attempts] zero or negative the loop is not entered:
    nothing is attempted, sent or waited for, and the error raised has no
    cause. *)
Theorem send_email_no_attempt (subject body : string) (reply_to : option string)
    (attachments : option (list (string * list Byte.byte))) (max_attempts : Z) :
  max_attempts <= 0 →
  send_email server subject body reply_to attachments max_attempts =
    (Raise (RuntimeError
              ("Failed to send email after " ++ @pretty Z _ max_attempts ++ " attempts")),
     []).
Proof.
  intros Hmax. unfold send_email.
  destruct max_attempts as [| p | p]; [reflexivity | lia | reflexivity].
Qed.


(** X11.  The waits of a call add up to [2^k - 1] seconds, [k] being their
    number: fewer than [max_attempts] when the call returns, exactly
    [max_attempts] when it raises.  With the default of 3 attempts a call
    waits at most 3 seconds before it succeeds and 7 seconds before it
    fails. *)
Theorem backoff_total (subject body : string) (reply_to : option string)
    (attachments : option (list (string * list Byte.byte))) (max_attempts : Z) :
  let out := send_email server subject body reply_to attachments max_attempts in
  total (sleeps_of out.2) = 2 ^ Z.of_nat (length (sleeps_of out.2)) - 1 ∧
  ((out.1 = Ok tt ∧ (length (sleeps_of out.2) < Z.to_nat max_attempts)%nat) ∨
   ((∃ e, out.1 = Raise e) ∧ length (sleeps_of out.2) = Z.to_nat max_attempts)).
Proof.
  intros out. subst out. unfold send_email.
  destruct (send_loop_shape server (build_message subject body reply_to attachments)
              max_attempts (Z.to_nat max_attempts) 0 None)
    as (k & Hk & Hfail & [[Hall ->] | (Hlt & Hsucc & ->)]); cbn [fst snd];
    destruct (sleeps_of_failed_rounds k (0 + 1)) as [Hlen Htotal].
  - rewrite Hlen, Htotal by lia. split; [cbn; lia | right; eauto].
  - rewrite sleeps_of_app. cbn [sleeps_of omap list_omap]. rewrite app_nil_r.
    fold (sleeps_of (failed_rounds (0 + 1) k)).
    rewrite Hlen, Htotal by lia. split; [cbn; lia | left; eauto].
Qed.

End WithDeployment.

Lemma send_email_no_attempt_witness :
  send_email (H := Examples.deployment) Examples.up "Hello" "Body" None None 0 =
    (Raise (RuntimeError ("Failed to send email after " ++ @pretty Z _ 0 ++ " attempts")), []).
Proof.
  apply (send_email_no_attempt (H := Examples.deployment) Examples.up "Hello" "Body" None None 0).
  lia.
Defined.

End DispatcherRuns.

(** ** The handler, step by step *)

Module HandlerRuns.

Import Dispatcher Handler HandlerFacts.

Section WithDeployment.
Context `{Deployment}.

(** *** The loop over the uploaded files *)

Lemma receive_file_acceptable file_storage attachments :
  if acceptable file_storage
  then ∃ attachments', receive_file file_storage attachments = inr attachments'
  else receive_file file_storage attachments = inl (refusal file_storage).
Proof.
  unfold acceptable, receive_file, refusal.
  destruct (fs_filename file_storage) as [filename |]; [| eauto].
  destruct (Str.nonempty filename); cbn; [| eauto].
  destruct (allowed_filename (secure_filename filename)); cbn; [| done].
  unfold MAX_ATTACHMENT_SIZE. case_bool_decide; case_decide; try lia; eauto.
Qed.

(** X18.  The files are examined in order and the first one that does not
    pass decides: the loop ends with the refusal of that file, whatever
    comes after it, and it ends with the attachments exactly when every
    file passes. *)
Theorem first_refusal_decides fields : ∀ attachments : list (string * list Byte.byte),
  match List.find (λ file_storage, negb (acceptable file_storage)) fields.*2 with
  | Some file_storage => receive_files fields attachments = inl (refusal file_storage)
  | None => ∃ attachments', receive_files fields attachments = inr attachments'
  end.
Proof.
  induction fields as [| [key file_storage] fields IH]; intros attachments; cbn; [eauto |].
  pose proof (receive_file_acceptable file_storage attachments) as Hfile.
  destruct (acceptable file_storage); cbn.
  - destruct Hfile as [attachments' ->]. apply IH.
  - by rewrite Hfile.
Qed.

(** *** What is attached *)

Lemma dict_has_elem {A} key (d : list (string * A)) :
  Json.dict_has key d = true ↔ key ∈ d.*1.
Proof.
  induction d as [| [k v] d IH]; cbn.
  - split; [done | by intros ?%elem_of_nil].
  - rewrite elem_of_cons, <- IH. destruct (String.eqb_spec k key) as [-> | Hne]; cbn.
    + split; auto.
    + split; [auto | by intros [-> | ?]].
Qed.

Lemma dict_set_keys {A} key (v : A) d :
  (Json.dict_set key v d).*1 = if Json.dict_has key d then d.*1 else (d.*1 ++ [key])%list.
Proof.
  induction d as [| [k w] d IH]; cbn; [done |].
  destruct (String.eqb_spec k key) as [-> | Hne]; cbn; [done |].
  rewrite IH. by destruct (Json.dict_has key d).
Qed.

Lemma receive_files_ok fields : ∀ attachments attachments',
  receive_files fields attachments = inr attachments' →
  attachments_ok attachments → attachments_ok attachments'.
Proof.
  induction fields as [| [key file_storage] fields IH]; intros attachments attachments'; cbn.
  - by intros [= <-].
  - destruct (receive_file file_storage attachments) as [r | attachments1] eqn:Hfile; [done |].
    intros Hrest [Hallowed Hdistinct]. apply (IH _ _ Hrest).
    unfold receive_file in Hfile.
    destruct (fs_filename file_storage) as [filename |]; [| by simplify_eq].
    destruct (Str.nonempty filename); cbn in Hfile; [| by simplify_eq].
    destruct (allowed_filename (secure_filename filename)) eqn:Hok; cbn in Hfile; [| done].
    case_decide; [done |]. simplify_eq.
    unfold attachments_ok. rewrite dict_set_keys.
    destruct (Json.dict_has (secure_filename filename) attachments) eqn:Hhas; [done |].
    split.
    + apply Forall_app. split; [done |]. by constructor.
    + apply NoDup_app. split; [done |]. split; [| apply NoDup_singleton].
      intros fname Hin ->%list_elem_of_singleton.
      apply dict_has_elem in Hin. congruence.
Qed.

Lemma parse_input_ok req payload attachments :
  parse_input req = inr (payload, attachments) → attachments_ok attachments.
Proof.
  assert (attachments_ok []) as Hnil by (split; constructor).
  unfold parse_input. destruct (match content_type req with Some _ => _ | None => _ end).
  - repeat case_match; intros; by simplify_eq.
  - destruct (receive_files (files req) []) as [r | atts] eqn:Hfiles; [done |].
    intros [= <- <-]. by eapply receive_files_ok.
Qed.

Lemma attach_filename item : part_filename (attach item) = item.1.
Proof. unfold attach. by destruct (attachment_type item.1). Qed.

Lemma outgoing_attachments sent_at payload attachments :
  part_filename <$> msg_attachments (outgoing sent_at payload attachments) = attachments.*1.
Proof.
  unfold outgoing, build_message. cbn [msg_attachments].
  destruct attachments as [| item rest]; [done |].
  rewrite <- list_fmap_compose. apply list_fmap_ext. intros i x _. apply attach_filename.
Qed.

(** *** What is dispatched *)

(** The handler dispatches nothing, or it ran the last step on a payload
    that is a dict. *)
Lemma handler_cases now sent_at server req store :
  (receive_send_email now sent_at server req store).2 = [] ∨
  ∃ payload attachments,
    parse_input req = inr (JDict payload, attachments) ∧
    (receive_send_email now sent_at server req store).1.1 =
      (validate_and_send sent_at server payload attachments).1 ∧
    (receive_send_email now sent_at server req store).2 =
      (validate_and_send sent_at server payload attachments).2.
Proof.
  unfold receive_send_email.
  destruct (RateLimiter.is_rate_limited _ _ _) as [[[|] | e] store']; cbn; auto.
  destruct (parse_input req) as [refused | [[] attachments]]; cbn; auto.
  right. eexists _, _. split; [done |].
  by destruct (validate_and_send _ _ _ _).
Qed.

(** The last step sends nothing, or the one message built from the payload. *)
Lemma validate_and_send_transmits sent_at server payload attachments :
  transmissions_of (validate_and_send sent_at server payload attachments).2 = [] ∨
  (Str.nonempty (safe_text (Json.dict_get JNull "name" payload)) = true ∧
   Str.nonempty (safe_text (Json.dict_get JNull "email" payload)) = true ∧
   Str.nonempty (safe_text (Json.dict_get JNull "message" payload)) = true ∧
   transmissions_of (validate_and_send sent_at server payload attachments).2 =
     [outgoing sent_at payload attachments]).
Proof.
  unfold validate_and_send.
  destruct (Str.nonempty (safe_text (Json.dict_get JNull "name" payload))) eqn:Hname;
    cbn; [| auto].
  destruct (Str.nonempty (safe_text (Json.dict_get JNull "email" payload))) eqn:Hemail;
    cbn; [| auto].
  destruct (Str.nonempty (safe_text (Json.dict_get JNull "message" payload))) eqn:Hmessage;
    cbn; [| auto].
  unfold send_email.
  match goal with
  | |- context [send_loop ?srv ?m ?mx ?r ?a ?l] =>
      destruct (DispatcherFacts.send_loop_transmissions srv m mx r a l) as [Htr | Htr];
      destruct (send_loop srv m mx r a l) as [[[] | e] tr]; cbn [snd] in *; rewrite Htr
  end; auto.
Qed.

(** Whatever holds of the message built from any dict payload holds of
    every message the handler transmits. *)
Lemma transmitted_by_handler (P : EmailMessage → Prop) now sent_at server req store :
  (∀ payload attachments,
     parse_input req = inr (JDict payload, attachments) →
     Str.nonempty (safe_text (Json.dict_get JNull "name" payload)) = true →
     Str.nonempty (safe_text (Json.dict_get JNull "email" payload)) = true →
     Str.nonempty (safe_text (Json.dict_get JNull "message" payload)) = true →
     P (outgoing sent_at payload attachments)) →
  Forall P (transmissions_of (receive_send_email now sent_at server req store).2).
Proof.
  intros HP.
  destruct (handler_cases now sent_at server req store)
    as [-> | (payload & attachments & Hparse & _ & ->)]; [constructor |].
  destruct (validate_and_send_transmits sent_at server payload attachments)
    as [-> | (Hname & Hemail & Hmessage & ->)]; [constructor |].
  repeat constructor. by apply HP.
Qed.

Lemma prefix_app (pre s : string) : String.prefix pre (pre ++ s) = true.
Proof.
  induction pre as [| c pre IH]; [by destruct s |].
  change (String c pre ++ s) with (String c (pre ++ s)). cbn.
  by destruct (ascii_dec c c).
Qed.

(** X12.  Every message the handler transmits goes from the configured
    sender to the configured recipient, with the submitter's trimmed,
    non-empty email as Reply-To and a subject that starts with
    "[GOP3 Fan] ": the request chooses neither the sender nor the
    recipient. *)
Theorem transmitted_headers now sent_at server req store :
  Forall (λ msg, msg_from msg = SMTP_FROM ∧ msg_to msg = SMTP_TO ∧
                 (∃ email, msg_reply_to msg = Some email ∧ email ≠ "" ∧
                           Str.strip email = email) ∧
                 Str.startswith (msg_subject msg) "[GOP3 Fan] " = true)
         (transmissions_of (receive_send_email now sent_at server req store).2).
Proof.
  apply transmitted_by_handler. intros payload attachments _ _ Hemail _.
  unfold outgoing, build_message. cbn [msg_from msg_to msg_reply_to msg_subject].
  rewrite Hemail. repeat split.
  - eexists. split; [done |]. split.
    + intros Hempty. by rewrite Hempty in Hemail.
    + rewrite <- TextFacts.safe_text_str. apply TextFacts.safe_text_again.
  - apply prefix_app.
Qed.

(** X13.  Every attachment of a transmitted message has an allowed
    (sanitized) name, and no two attachments of a message have the same
    name. *)
Theorem transmitted_attachments now sent_at server req store :
  Forall (λ msg,
            Forall (λ part, allowed_filename (part_filename part) = true)
                   (msg_attachments msg) ∧
            NoDup (part_filename <$> msg_attachments msg))
         (transmissions_of (receive_send_email now sent_at server req store).2).
Proof.
  apply transmitted_by_handler. intros payload attachments Hparse _ _ _.
  destruct (parse_input_ok _ _ _ Hparse) as [Hallowed Hdistinct].
  rewrite outgoing_attachments. split; [| done].
  apply (Forall_fmap part_filename (λ fname, allowed_filename fname = true)).
  by rewrite outgoing_attachments.
Qed.

Lemma outgoing_content sent_at payload attachments :
  Str.nonempty (safe_text (Json.dict_get JNull "name" payload)) = true →
  Str.nonempty (safe_text (Json.dict_get JNull "email" payload)) = true →
  Str.nonempty (safe_text (Json.dict_get JNull "message" payload)) = true →
  msg_content (outgoing sent_at payload attachments) =
    Str.join Str.newline (body_lines sent_at payload).
Proof.
  intros Hname Hemail Hmessage.
  unfold outgoing, build_message, body_lines. cbn [msg_content].
  unfold build_email_body.
  change (Json.dict_has "meta" _) with true.
  cbn [Json.dict_get String.eqb Ascii.eqb Bool.eqb].
  unfold subject_of. rewrite !TextFacts.safe_text_again.
  rewrite Hname, Hemail, Hmessage.
  destruct (Str.nonempty (safe_text (Json.py_or _ _))); reflexivity.
Qed.

(** X17.  The body of every message the handler transmits is laid out as
    follows, with the fields as validated (the second normalization in
    [build_email_body] changes nothing): header, time stamp, the Name and
    Email lines, the Subject line unless the subject is empty, the message
    itself (never the placeholder), and a Meta section. *)
Theorem transmitted_body now sent_at server req store :
  Forall (λ msg, ∃ payload attachments,
            parse_input req = inr (JDict payload, attachments) ∧
            msg_content msg = Str.join Str.newline (body_lines sent_at payload))
         (transmissions_of (receive_send_email now sent_at server req store).2).
Proof.
  apply transmitted_by_handler. intros payload attachments Hparse Hname Hemail Hmessage.
  exists payload, attachments. split; [done |]. by apply outgoing_content.
Qed.

(** *** The outcome of a valid submission *)


(** *** Payloads that are not objects *)

(** X14.  A JSON body that is valid but is not an object (a list, a
    string, a number, a boolean) is not answered 400: once the request has
    been counted, [payload.get] raises AttributeError, which leaves the
    view, and nothing is dispatched. *)
Theorem non_object_payload_raises now sent_at server req store ct value :
  content_type req = Some ct →
  Str.startswith ct "application/json" = true →
  get_json req = Ok value →
  value ≠ JNull →
  (∀ fields, value ≠ JDict fields) →
  (RateLimiter.is_rate_limited now (client_ip req) store).1 = Ok false →
  let out := receive_send_email now sent_at server req store in
  (∃ descr, out.1.1 = Unhandled (AttributeError descr)) ∧
  out.1.2 = (RateLimiter.is_rate_limited now (client_ip req) store).2 ∧
  out.2 = [].
Proof.
  intros Hct Hjson Hget Hnull Hdict Hrate out. subst out.
  unfold receive_send_email.
  destruct (RateLimiter.is_rate_limited _ _ _) as [[[|] | e] store']; cbn in Hrate; try done.
  unfold parse_input. rewrite Hct, Hjson, Hget.
  assert (Str.nonempty ct = true) as -> by (by destruct ct).
  cbn [andb]. destruct value; try done; cbn; eauto.
  by destruct (Hdict fields).
Qed.

(** *** The 429 response *)

Lemma denied_iff now ip (store : gmap string (gmap string Z)) :
  (RateLimiter.is_rate_limited now ip store).1 = Ok true ↔
  ∃ data ws count,
    store !! ip = Some data ∧ data !! "window_start" = Some ws ∧
    now - ws <= RATE_LIMIT_WINDOW ∧ data !! "count" = Some count ∧
    count >= RATE_LIMIT_MAX.
Proof.
  unfold RateLimiter.is_rate_limited. split.
  - destruct (store !! ip) as [data |]; [| done].
    case_decide; [done |].
    destruct (data !! "window_start") as [ws |] eqn:Hws; [| done].
    case_decide; [done |].
    destruct (data !! "count") as [c |] eqn:Hc; [| done].
    case_decide; [| done]. intros _. exists data, ws, c. repeat split; try done; lia.
  - intros (data & ws & c & -> & Hws & Hin & Hc & Hfull).
    case_decide as Hempty; [by rewrite Hempty in Hws |].
    rewrite Hws. case_decide; [lia |]. rewrite Hc. by case_decide.
Qed.

Lemma denied_store now ip (store : gmap string (gmap string Z)) :
  (RateLimiter.is_rate_limited now ip store).1 = Ok true →
  (RateLimiter.is_rate_limited now ip store).2 = store.
Proof.
  unfold RateLimiter.is_rate_limited. repeat (case_match || case_decide); cbn; done.
Qed.

(** X16.  The handler answers 429 exactly when the entry of the client IP
    has an open window ([now - window_start <= 60]) with a count of 6 or
    more; it then leaves the store as it was, reads nothing of the request
    and dispatches nothing. *)
Theorem too_many_requests_iff now sent_at server req store :
  let out := receive_send_email now sent_at server req store in
  (out.1.1 = too_many_requests ↔
   ∃ data ws count,
     store !! client_ip req = Some data ∧ data !! "window_start" = Some ws ∧
     now - ws <= RATE_LIMIT_WINDOW ∧ data !! "count" = Some count ∧
     count >= RATE_LIMIT_MAX) ∧
  (out.1.1 = too_many_requests → out.1.2 = store ∧ out.2 = []).
Proof.
  intros out. subst out. rewrite <- denied_iff.
  pose proof (denied_store now (client_ip req) store) as Hstore.
  pose proof (status_when_let_through now sent_at server req store) as Hstatus.
  unfold receive_send_email in *.
  destruct (RateLimiter.is_rate_limited _ _ _) as [[[|] | e] store']; cbn in *.
  - split; [done |]. intros _. by rewrite Hstore.
  - specialize (Hstatus store' eq_refl).
    assert (∀ r, status_of r ∈ [200; 400; 422; 500] → r ≠ too_many_requests) as Hne.
    { intros r Hr ->. cbn in Hr.
      repeat (apply elem_of_cons in Hr as [Hr | Hr]; [done |]). by apply elem_of_nil in Hr. }
    split; [split; [| done] |]; intros Heq; by apply Hne in Heq.
  - split; [split |]; done.
Qed.

(** *** The key a client is counted under *)


(** X3.  A request whose X-Forwarded-For is present but empty is counted
    under "unknown": the address of the connection is not used. *)
Theorem empty_forwarded_for_is_unknown now sent_at server req store :
  x_forwarded_for req = Some "" →
  client_ip req = "unknown" ∧
  (receive_send_email now sent_at server req store).1.2 =
    (RateLimiter.is_rate_limited now "unknown" store).2.
Proof.
  intros Hheader.
  assert (client_ip req = "unknown") as Hip by (unfold client_ip; by rewrite Hheader).
  split; [done |]. by rewrite store_after_request, Hip.
Qed.

(** *** Requests that are always answered *)



End WithDeployment.



Lemma non_object_payload_raises_witness :
  let out := receive_send_email (H := Examples.deployment) 1000 Examples.sent_at
               Examples.up (Examples.json_request (JList [JInt 1])) ∅ in
  (∃ descr, out.1.1 = Unhandled (AttributeError descr)) ∧
  out.1.2 = (RateLimiter.is_rate_limited 1000 "203.0.113.9" ∅).2 ∧
  out.2 = [].
Proof.
  apply (non_object_payload_raises (H := Examples.deployment) 1000 Examples.sent_at
           Examples.up (Examples.json_request (JList [JInt 1])) ∅
           "application/json" (JList [JInt 1]));
    try reflexivity; try discriminate.
Defined.


Lemma empty_forwarded_for_is_unknown_witness :
  client_ip (Examples.forwarded_request "" (JDict Examples.ann)) = "unknown" ∧
  (receive_send_email (H := Examples.deployment) 1000 Examples.sent_at Examples.up
     (Examples.forwarded_request "" (JDict Examples.ann)) ∅).1.2 =
    (RateLimiter.is_rate_limited 1000 "unknown" ∅).2.
Proof.
  apply (empty_forwarded_for_is_unknown (H := Examples.deployment) 1000 Examples.sent_at
           Examples.up (Examples.forwarded_request "" (JDict Examples.ann)) ∅).
  reflexivity.
Defined.

End HandlerRuns.
